(** * Game of Life (game_of_life.cpp): grid, transition rule, band
      partitioning, convergence step, embedding and seed loading.

    The C++ program is embedded shallowly: [std::vector] values are lists,
    [int] values are integers of [Z], loops are folds over the range of their
    counter, the engine object is a record threaded through the member
    functions, and constructors that may throw return an [option].

    Modelling conventions.
    - [int] arithmetic is done in [Z]; the sizes of the vectors held in memory
      keep every sum and product below the range of [int], where C++ leaves
      overflow undefined. Conversions between [int] and [size_t] are written
      out where the source performs them on values that can leave the range.
    - [operator[]] of [std::vector] does no range check. A read past the end
      of a row yields whatever byte memory holds there: that byte is the
      section variable [beyond]. A write is only modelled inside the vector;
      the statements that depend on a write establish that it is in range.
    - A function that returns an [option] answers [None] where the code
      does not return: an exception leaves it, or it reads a row of a vector
      that has none. The member functions of the engine return the engine;
      they stand for the code on an engine whose grid has a row and for a
      count of threads of 1 at least, which their statements assume where
      they say that a step is made. *)

From Stdlib Require Import ZArith Lia Ascii String.
From stdpp Require Import base tactics option list list_numbers strings.

Local Open Scope Z_scope.

(** ** Types of the source *)

(** [using row_t = std::vector<char>] *)
Abbreviation row_t := (list ascii).

(** [using grid_t = std::vector<row_t>] *)
Abbreviation grid_t := (list (list ascii)).

(** [enum GridAlignment] *)
Inductive GridAlignment : Set :=
| none
| center
| top_left
| top_right
| bottom_left
| bottom_right.

(** The blank cell, [' ']. *)
Definition blank : ascii := " "%char.

(** [int Grid::height() const { return grid.size(); }] *)
Definition Grid_height (g : grid_t) : Z := Z.of_nat (length g).

(** [int Grid::width() const { return grid[0].size(); }] where the source
    calls it on a grid that has a row: behind a test of the row index, or on
    the grid of an engine. On a grid without rows [grid[0]] does not exist;
    the 0 that stands there is no value of the code. *)
Definition Grid_width (g : grid_t) : Z :=
  match g with
  | [] => 0
  | row :: _ => Z.of_nat (length row)
  end.

(** [width()] where the source calls it on a grid that may have no row:
    [None] when [grid[0]] does not exist. *)
Definition Grid_width_checked (g : grid_t) : option Z :=
  match g with
  | [] => None
  | row :: _ => Some (Z.of_nat (length row))
  end.

(** [bool Grid::operator==]: equality of the two vectors of rows, that is
    same sizes and the same cell at every place. *)
Fixpoint row_eqb (r1 r2 : row_t) : bool :=
  match r1, r2 with
  | [], [] => true
  | c1 :: r1', c2 :: r2' => Ascii.eqb c1 c2 && row_eqb r1' r2'
  | _, _ => false
  end.

Fixpoint grid_eqb (g1 g2 : grid_t) : bool :=
  match g1, g2 with
  | [], [] => true
  | r1 :: g1', r2 :: g2' => row_eqb r1 r2 && grid_eqb g1' g2'
  | _, _ => false
  end.

(** ** Loops *)

(** [for (int i = lo; i < hi; ++i) body], as a fold of the body over the
    values taken by the counter. *)
Definition for_range {S : Type} (lo hi : Z) (body : Z → S → S) (s : S) : S :=
  foldl (λ acc i, body i acc) s (seqZ lo (hi - lo)).

(** The cell stored at row [i], column [j], if the grid has one there. *)
Definition cell_at (g : grid_t) (i j : Z) : option ascii :=
  if (0 <=? i) && (0 <=? j)
  then g !! Z.to_nat i ≫= λ row, row !! Z.to_nat j
  else None.

(** [grid[i][j] = c]: the write, inside the vector. *)
Definition set_cell (g : grid_t) (i j : Z) (c : ascii) : grid_t :=
  if (0 <=? i) && (0 <=? j)
  then alter (λ row : row_t, <[Z.to_nat j := c]> row) (Z.to_nat i) g
  else g.

(** [grid[i][j] = c] with its domain: [None] where the vector has no cell at
    [(i, j)] and the write would leave the buffer. *)
Definition write_cell (g : grid_t) (i j : Z) (c : ascii) : option grid_t :=
  match cell_at g i j with
  | Some _ => Some (set_cell g i j c)
  | None => None
  end.

(** The engine object, [class GameOfLife]. *)
Record GameOfLife : Type := mkGameOfLife {
  grid : grid_t;
  next_grid : grid_t;
  particle : ascii;
  stale : bool
}.

(** [#define NUM_THREADS 4] *)
Definition NUM_THREADS : Z := 4.

(** One worker thread, [std::thread(&GameOfLife::check_bounded, this,
    height, width, start_x, start_y)]: the arguments of its call. *)
Record band : Type := mkBand {
  band_height : Z;
  band_width : Z;
  band_start_x : Z;
  band_start_y : Z
}.

(** The transition rule in the words of the specification: alive with two or
    three alive neighbours stays alive, blank with exactly three becomes
    alive, everything else is blank. *)
Definition rule (p c : ascii) (count : Z) : ascii :=
  if Ascii.eqb c p && ((count =? 2) || (count =? 3)) then p
  else if Ascii.eqb c blank && (count =? 3) then p
  else blank.

Section Engine.

(** The byte read by [grid[i][j]] when the grid holds no cell at [(i, j)]. *)
Variable beyond : Z → Z → ascii.

(** [grid[i][j]] as a value. *)
Definition read (g : grid_t) (i j : Z) : ascii :=
  match cell_at g i j with
  | Some c => c
  | None => beyond i j
  end.

(** ** Neighbour counting *)

(** [GameOfLife::check_neighbors], with the list of the places [(i, j)] at
    which it evaluates [grid[i][j]], in the order of the evaluations.
<<
    int count = 0;
    for(int i = (x - 1); i <= (x + 1); i++) {
        if(i < 0 || i >= grid.height()) { continue; }
        for(int j = (y - 1); j <= (y + 1); j++) {
            if(j < 0 || i >= grid.width()) { continue; }
            if(i != x || j != y) {
                if(grid[i][j] == particle) { count++; }
            }
        }
    }
    return count;
>> *)
Definition check_neighbors_traced (g : grid_t) (p : ascii) (x y : Z)
  : Z * list (Z * Z) :=
  for_range (x - 1) (x + 1 + 1) (λ i st,
    if (i <? 0) || (i >=? Grid_height g) then st else
    for_range (y - 1) (y + 1 + 1) (λ j '(count, reads),
      if (j <? 0) || (i >=? Grid_width g) then (count, reads) else
      if negb (i =? x) || negb (j =? y)
      then (if Ascii.eqb (read g i j) p then count + 1 else count,
            reads ++ [(i, j)])
      else (count, reads)) st) (0, []).

Definition check_neighbors (g : grid_t) (p : ascii) (x y : Z) : Z :=
  fst (check_neighbors_traced g p x y).

Definition check_neighbors_reads (g : grid_t) (p : ascii) (x y : Z)
  : list (Z * Z) :=
  snd (check_neighbors_traced g p x y).


(** ** The transition rule *)

(** [next_grid[i][j] = c] *)
Definition set_next (s : GameOfLife) (i j : Z) (c : ascii) : GameOfLife :=
  mkGameOfLife (grid s) (set_cell (next_grid s) i j c) (particle s) (stale s).

(** The body of the two loops of [GameOfLife::check_bounded], which is also,
    word for word, the body of the loops of [GameOfLife::check].
<<
    count = check_neighbors(i, j);
    if(grid[i][j] == particle) {
        if(count < 2 || count > 3) { next_grid[i][j] = ' '; }
        else { next_grid[i][j] = particle; }
    } else if(grid[i][j] == ' ' && count == 3) {
        next_grid[i][j] = particle;
    } else { next_grid[i][j] = ' '; }
>> *)
Definition check_cell (s : GameOfLife) (i j : Z) : GameOfLife :=
  let count := check_neighbors (grid s) (particle s) i j in
  if Ascii.eqb (read (grid s) i j) (particle s) then
    if (count <? 2) || (count >? 3)
    then set_next s i j blank
    else set_next s i j (particle s)
  else if Ascii.eqb (read (grid s) i j) blank && (count =? 3) then
    set_next s i j (particle s)
  else set_next s i j blank.

(** The value of the rule at a place of a grid, from the cell read there
    and the count of [check_neighbors]. *)
Definition written (g : grid_t) (p : ascii) (c : Z * Z) : ascii :=
  rule p (read g c.1 c.2) (check_neighbors g p c.1 c.2).

(** [GameOfLife::check_bounded(height, width, start_x, start_y)] *)
Definition check_bounded (s : GameOfLife) (height width start_x start_y : Z)
  : GameOfLife :=
  for_range start_x (start_x + height) (λ i s,
    for_range start_y (start_y + width) (λ j s, check_cell s i j) s) s.

(** [GameOfLife::check()], the full pass of a single thread. The bounds
    [grid.height()] and [grid.width()] are read from a grid that the pass
    never writes. *)
Definition check (s : GameOfLife) : GameOfLife :=
  let height := Grid_height (grid s) in
  let width := Grid_width (grid s) in
  for_range 0 height (λ i s,
    for_range 0 width (λ j s, check_cell s i j) s) s.

(** ** The partitioner *)

(** The threads created by the loop of [GameOfLife::check_multithread], in
    the order of creation, for [num_threads >= 1] and a grid that has a row.
    [grid.height() / num_threads] and [%] are the truncating operations of
    C++. With [num_threads == 0] the code divides by zero, with a negative
    count [threads.reserve] throws, and on a grid without rows
    [grid.width()] reads [grid[0]]: the list that stands there is no result
    of the code.
<<
    int step_x = grid.height() / num_threads;
    int rest_x = grid.height() % num_threads;
    int step_y = grid.width();
    for(int i = 0; i < num_threads; i++) {
        if(i != num_threads - 1) {
            threads.emplace_back(std::thread(&GameOfLife::check_bounded, this,
                                 step_x, step_y, i*step_x, 0));
        } else {
            threads.emplace_back(std::thread(&GameOfLife::check_bounded, this,
                                 step_x + rest_x, step_y, i*step_x, 0));
        }
    }
>> *)
Definition spawn_threads (g : grid_t) (num_threads : Z) : list band :=
  let step_x := Grid_height g `quot` num_threads in
  let rest_x := Grid_height g `rem` num_threads in
  let step_y := Grid_width g in
  for_range 0 num_threads (λ i threads,
    if negb (i =? num_threads - 1)
    then threads ++ [mkBand step_x step_y (i * step_x) 0]
    else threads ++ [mkBand (step_x + rest_x) step_y (i * step_x) 0]) [].

(** What one thread does from start to end. *)
Definition run_thread (s : GameOfLife) (b : band) : GameOfLife :=
  check_bounded s (band_height b) (band_width b)
                  (band_start_x b) (band_start_y b).

(** [GameOfLife::check_multithread(num_threads)] up to the join of all
    threads, for the schedule in which every thread runs to its end before
    the next one starts. The other schedules are [run_schedule] below. *)
Definition check_multithread (s : GameOfLife) (num_threads : Z) : GameOfLife :=
  foldl run_thread s (spawn_threads (grid s) num_threads).

(** The cells visited by a thread, in the order of its two loops. Each visit
    is one execution of [check_cell]. *)
Definition band_cells (b : band) : list (Z * Z) :=
  for_range (band_start_x b) (band_start_x b + band_height b) (λ i cells,
    for_range (band_start_y b) (band_start_y b + band_width b) (λ j cells,
      cells ++ [(i, j)]) cells) [].

(** The engine after the cell visits of a schedule, one after the other. *)
Definition run_schedule (s : GameOfLife) (schedule : list (Z * Z)) : GameOfLife :=
  foldl (λ s c, check_cell s c.1 c.2) s schedule.

(** ** One generation *)

(** [GameOfLife::update()]
<<
    check_multithread(NUM_THREADS);
    if(grid == next_grid) { stale = true; }
    else { grid = next_grid; }
>> *)
Definition update (s : GameOfLife) : GameOfLife :=
  let s := check_multithread s NUM_THREADS in
  if grid_eqb (grid s) (next_grid s)
  then mkGameOfLife (grid s) (next_grid s) (particle s) true
  else mkGameOfLife (next_grid s) (next_grid s) (particle s) (stale s).

End Engine.

(** An order in which the steps of several threads can follow one another:
    the next step of the schedule is the next step of one of the threads. *)
Inductive Interleaving {A : Type} : list (list A) → list A → Prop :=
| interleaving_done threads :
    Forall (λ t, t = []) threads → Interleaving threads []
| interleaving_step before a t after schedule :
    Interleaving (before ++ t :: after) schedule →
    Interleaving (before ++ (a :: t) :: after) (a :: schedule).

(** ** Construction *)

(** [int] to [size_t], and back: the value modulo the width of the type. *)
Definition size_t_of_int (n : Z) : Z := n mod 2 ^ 64.

Definition int_of_size_t (n : Z) : Z :=
  let m := n mod 2 ^ 32 in
  if m <? 2 ^ 31 then m else m - 2 ^ 32.

(** [max_size()] of [std::vector<char>] and of [std::vector<row_t>] where
    pointers have 64 bits and a row takes 24 bytes. *)
Definition max_size_char : Z := 2 ^ 63 - 1.
Definition max_size_row : Z := (2 ^ 63 - 1) `quot` 24.

(** [std::vector<T>(n, x)] for an [int n]: the count is converted to
    [size_t]; beyond [max_size()] the constructor throws
    [std::length_error], here [None]. *)
Definition vector_fill {A : Type} (max_size : Z) (n : Z) (x : A)
  : option (list A) :=
  if size_t_of_int n >? max_size then None
  else Some (replicate (Z.to_nat (size_t_of_int n)) x).

(** [row.insert(row.end(), n, x)] for a [size_t n]: throws
    [std::length_error] when fewer than [n] places are left. *)
Definition vector_insert_end {A : Type} (max_size : Z) (row : list A)
    (n : Z) (x : A) : option (list A) :=
  if n >? max_size - Z.of_nat (length row) then None
  else Some (row ++ replicate (Z.to_nat n) x).

(** [Grid::Grid(int height, int length)]
<<
    grid = grid_t(height);
    for(auto& row : grid) { row = row_t(length, ' '); }
>> *)
Definition Grid_ctor (height length_ : Z) : option grid_t :=
  rows ← vector_fill max_size_row height ([] : row_t);
  mapM (λ _ : row_t, vector_fill max_size_char length_ blank) rows.

Section Embedding.

Variable beyond : Z → Z → ascii.

(** The values found in the locals [int start_x; int start_y;], which are
    declared without an initial value. *)
Variables uninit_x uninit_y : Z.

(** [Grid::Grid(int height, int length, Grid&& other, GridAlignment align)]
<<
    switch(align) {
        case center:
            start_x = (this->height() / 2) - (other.height() / 2);
            start_y = (this->width() / 2) - (other.width() / 2);
            break;
        case top_left:     start_x = 0; start_y = 0; break;
        case top_right:    start_x = 0;
                           start_y = this->width() - other.width(); break;
        case bottom_left:  start_x = this->height() - other.height();
                           start_y = 0; break;
        case bottom_right: start_x = this->height() - other.height();
                           start_y = this->width() - other.width(); break;
        default: break;
    }
    for(int i = start_x; i < (start_x + other.height()); i++) {
        for(int j = start_y; j < (start_y + other.width()); j++) {
            if(i < 0 || i >= this->height()) { continue; }
            if(j < 0 || j >= this->width()) { continue; }
            grid[i][j] = other[i - start_x][j - start_y];
        }
    }
>> *)
Definition alignment_start (this other : grid_t) (align : GridAlignment)
  : option (Z * Z) :=
  match align with
  | center =>
      this_width ← Grid_width_checked this;
      other_width ← Grid_width_checked other;
      Some (Grid_height this `quot` 2 - Grid_height other `quot` 2,
            this_width `quot` 2 - other_width `quot` 2)
  | top_left => Some (0, 0)
  | top_right =>
      this_width ← Grid_width_checked this;
      other_width ← Grid_width_checked other;
      Some (0, this_width - other_width)
  | bottom_left => Some (Grid_height this - Grid_height other, 0)
  | bottom_right =>
      this_width ← Grid_width_checked this;
      other_width ← Grid_width_checked other;
      Some (Grid_height this - Grid_height other, this_width - other_width)
  | none => Some (uninit_x, uninit_y)
  end.

(** The two loops. [other.width()] is evaluated in a turn of the outer loop,
    when [other] has a row, and [this->width()] behind the test of [i]. *)
Definition embed (this other : grid_t) (start_x start_y : Z)
  : option grid_t :=
  for_range start_x (start_x + Grid_height other) (λ i this,
    for_range start_y (start_y + Grid_width other) (λ j this,
      this ← this;
      if (i <? 0) || (i >=? Grid_height this) then Some this else
      if (j <? 0) || (j >=? Grid_width this) then Some this else
      write_cell this i j (read beyond other (i - start_x) (j - start_y)))
      this) (Some this).

Definition Grid_ctor_embed (height length_ : Z) (other : grid_t)
    (align : GridAlignment) : option grid_t :=
  this ← Grid_ctor height length_;
  start ← alignment_start this other align;
  embed this other start.1 start.2.

End Embedding.

(** ** The seed loader *)

(** [load_grid(const std::string& filepath)] once the file is open; [lines]
    are the lines that [getline] returns. [std::max] is called on the two
    iterators [grid.begin()] and [grid.end()], and its comparison reads the
    size of the row behind each: [past_end_size] is the value found behind
    [grid.end()], where the vector holds no row. For a file without lines
    the vector has no storage and neither iterator points to memory: the
    code does not return.
<<
    while(getline(fs, line)) {
        row_t row;
        std::copy(line.begin(), line.end(), std::back_inserter(row));
        grid.push_back(row);
    }
    int max_length = (std::max(grid.begin(), grid.end(),
                               [](auto& lhs, auto& rhs){
                                   return ( *lhs).size() > ( *rhs).size();
                               }))->size();
    for(auto& row : grid) {
        if(row.size() < max_length) {
            row.insert(row.end(), (row.size() - max_length), ' ');
        }
    }
    return { grid };
>> *)
Definition load_grid (past_end_size : Z) (lines : list string)
  : option grid_t :=
  let rows : grid_t := list_ascii_of_string <$> lines in
  match rows with
  | [] => None
  | first_row :: _ =>
      let begin_size := Z.of_nat (length first_row) in
      (* std::max(a, b, comp) is comp(a, b) ? b : a *)
      let max_size_t := if begin_size >? past_end_size then past_end_size
                        else begin_size in
      let max_length := int_of_size_t max_size_t in
      mapM (λ row : row_t,
        if Z.of_nat (length row) <? size_t_of_int max_length
        then vector_insert_end max_size_char row
               ((Z.of_nat (length row) - size_t_of_int max_length) mod 2 ^ 64)
               blank
        else Some row) rows
  end.

(** [load_grid(filepath, height, length, align)]:
    [return { height, length, load_grid(filepath), align };] *)
Definition load_grid_aligned (beyond : Z → Z → ascii) (uninit_x uninit_y : Z)
    (past_end_size : Z) (lines : list string) (height length_ : Z)
    (align : GridAlignment) : option grid_t :=
  other ← load_grid past_end_size lines;
  Grid_ctor_embed beyond uninit_x uninit_y height length_ other align.

(** ** Construction of the engine *)

(** [GameOfLife::replace_particle(char _particle)]
<<
    this->particle = _particle;
    for(int i = 0; i < grid.height(); ++i) {
        for(char& c : grid[i]) {
            if(c != ' ') { c = particle; }
        }
    }
>> *)
Definition replace_particle (s : GameOfLife) (_particle : ascii) : GameOfLife :=
  let s := mkGameOfLife (grid s) (next_grid s) _particle (stale s) in
  mkGameOfLife
    (for_range 0 (Grid_height (grid s)) (λ i g,
       alter (fmap (λ c, if negb (Ascii.eqb c blank) then particle s else c))
             (Z.to_nat i) g) (grid s))
    (next_grid s) (particle s) (stale s).

(** [struct GameOfLifeParams]; the seed file is given by its lines. *)
Record GameOfLifeParams : Type := mkParams {
  params_height : Z;
  params_width : Z;
  params_particle : ascii;
  params_lines : list string;
  params_alignment : GridAlignment
}.

(** The three constructors of [GameOfLife]. The member [particle] has no
    initial value and is first written by [replace_particle]; [stale] starts
    as [false]. The second and the third build the next grid with
    [Grid(grid.height(), grid.width())], which reads [grid[0]]. *)
Definition GameOfLife_blank (x y : Z) (p : ascii) : option GameOfLife :=
  g ← Grid_ctor x y;
  next ← Grid_ctor x y;
  Some (replace_particle (mkGameOfLife g next "000"%char false) p).

Definition GameOfLife_of_grid (start_grid : grid_t) (p : ascii)
  : option GameOfLife :=
  width ← Grid_width_checked start_grid;
  next ← Grid_ctor (Grid_height start_grid) width;
  Some (replace_particle (mkGameOfLife start_grid next "000"%char false) p).

Definition GameOfLife_of_params (beyond : Z → Z → ascii)
    (uninit_x uninit_y past_end_size : Z) (params : GameOfLifeParams)
  : option GameOfLife :=
  g ← load_grid_aligned beyond uninit_x uninit_y past_end_size
        (params_lines params) (params_height params) (params_width params)
        (params_alignment params);
  GameOfLife_of_grid g (params_particle params).

(** ** Vocabulary of the statements *)

(** A grid of [h] rows that all have [w] cells. *)
Definition rectangular (g : grid_t) (h w : nat) : Prop :=
  length g = h ∧ Forall (λ row : row_t, length row = w) g.

(** The cells of the rectangle with [h] rows from [x] and [w] columns from
    [y], row after row. *)
Definition rectangle_cells (h w x y : Z) : list (Z * Z) :=
  i ← seqZ x h; pair i <$> seqZ y w.

(** The three tests that [check_neighbors] passes before it evaluates
    [grid[i][j]] at [c = (i, j)], for a grid of [h] rows whose first row has
    [w] cells. *)
Definition neighbor_read (h w x y : Z) (c : Z * Z) : bool :=
  negb ((c.1 <? 0) || (c.1 >=? h))
  && negb ((c.2 <? 0) || (c.1 >=? w))
  && (negb (c.1 =? x) || negb (c.2 =? y)).

(** The places of a canvas of [h] rows and [w] columns. *)
Definition in_canvas (h w : Z) (c : Z * Z) : bool :=
  (0 <=? c.1) && (c.1 <? h) && (0 <=? c.2) && (c.2 <? w).

(** The rows of a band. *)
Definition band_rows (b : band) (r : Z) : Prop :=
  band_start_x b ≤ r < band_start_x b + band_height b.

(** The band of worker [i] among [n] for [h] rows of [w] cells, in the words
    of the specification. *)
Definition spec_band (h w n i : Z) : band :=
  mkBand (if i =? n - 1 then h `div` n + h `mod` n else h `div` n)
         w (i * (h `div` n)) 0.

(** The offsets of the alignments in the words of the specification, for a
    target of [th] by [tw] cells and a source of [sh] by [sw] cells. *)
Definition spec_offset (align : GridAlignment) (th tw sh sw : Z) : Z * Z :=
  match align with
  | center => (th `quot` 2 - sh `quot` 2, tw `quot` 2 - sw `quot` 2)
  | top_right => (0, tw - sw)
  | bottom_left => (th - sh, 0)
  | bottom_right => (th - sh, tw - sw)
  | top_left | none => (0, 0)
  end.

(** A seed cell once normalised: the blank stays, every other character
    becomes the particle. *)
Definition normalise (p c : ascii) : ascii :=
  if Ascii.eqb c blank then blank else p.

(** Every cell is the particle or the blank. *)
Definition two_symbol (p : ascii) (g : grid_t) : Prop :=
  Forall (Forall (λ c : ascii, c = p ∨ c = blank)) g.

Definition alphabet (s : GameOfLife) : Prop :=
  two_symbol (particle s) (grid s) ∧ two_symbol (particle s) (next_grid s).

(** The outcome of one step with the two grids exchanged, as the
    specification words it. *)
Definition step_swaps (beyond : Z → Z → ascii) (s : GameOfLife) : Prop :=
  let computed := next_grid (check_multithread beyond s NUM_THREADS) in
  let s' := update beyond s in
  (computed = grid s → stale s' = true ∧ grid s' = grid s) ∧
  (computed ≠ grid s →
     grid s' = computed ∧ next_grid s' = grid s ∧ stale s' = false).

(** Construction that rejects every dimension that is not positive, as the
    specification words it. *)
Definition ctor_rejects_nonpositive (height length_ : Z) : Prop :=
  (0 < height → 0 < length_ →
     Grid_ctor height length_ =
       Some (replicate (Z.to_nat height) (replicate (Z.to_nat length_) blank))) ∧
  (height ≤ 0 ∨ length_ ≤ 0 → Grid_ctor height length_ = None).

(** ** Further functions of the source *)

(** [Grid::print()], as the characters sent to the standard output
    ([MEASURE_TIME] is not defined).
<<
    for(int i = 0; i < height(); ++i) {
        std::copy(grid[i].begin(), grid[i].end(),
                  std::ostream_iterator<char>(std::cout, " "));
        printf("\n");
    }
>> *)
Definition Grid_print (g : grid_t) : list ascii :=
  for_range 0 (Grid_height g) (λ i out,
    out ++ (default [] (g !! Z.to_nat i) ≫= λ c, [c; " "%char])
        ++ ["010"%char]) [].

(** The case ['a'] of the option loop of [parse_cli_args]: the keyword
    [optarg] and the alignment held by [params] before.
<<
    if(strcmp(optarg, "center") == 0)       { params.alignment = center; }
    if(strcmp(optarg, "top-left") == 0)     { params.alignment = top_left; }
    if(strcmp(optarg, "top-right") == 0)    { params.alignment = top_right; }
    if(strcmp(optarg, "bottom-left") == 0)  { params.alignment = bottom_left; }
    if(strcmp(optarg, "bottom-right") == 0) { params.alignment = bottom_right; }
>> *)
Definition alignment_option (optarg : string) (alignment : GridAlignment)
  : GridAlignment :=
  let alignment :=
    if String.eqb optarg "center" then center else alignment in
  let alignment :=
    if String.eqb optarg "top-left" then top_left else alignment in
  let alignment :=
    if String.eqb optarg "top-right" then top_right else alignment in
  let alignment :=
    if String.eqb optarg "bottom-left" then bottom_left else alignment in
  let alignment :=
    if String.eqb optarg "bottom-right" then bottom_right else alignment in
  alignment.

Section Lifecycle.

Variable beyond : Z → Z → ascii.

(** The loop of [GameOfLife::start()], for at most [fuel] generations:
    [None] when the flag is still unset after them. The result holds the
    engine at the exit of the loop and the grids shown by [display()], in
    order.
<<
    while(!stale) {
        display();
        update();
        std::this_thread::sleep_for(REFRESH_RATE);
    }
>> *)
Fixpoint start_loop (fuel : nat) (s : GameOfLife) (frames : list grid_t)
  : option (GameOfLife * list grid_t) :=
  if stale s then Some (s, frames)
  else match fuel with
       | O => None
       | S fuel => start_loop fuel (update beyond s) (frames ++ [grid s])
       end.

(** [GameOfLife::start()]: [stale = false;] and the loop. *)
Definition start (fuel : nat) (s : GameOfLife)
  : option (GameOfLife * list grid_t) :=
  start_loop fuel (mkGameOfLife (grid s) (next_grid s) (particle s) false) [].

End Lifecycle.

(** The number of alive cells of the grid among the eight places around
    [(x, y)]. *)
Definition alive_neighbors (g : grid_t) (p : ascii) (x y : Z) : Z :=
  Z.of_nat (length (filter (λ c, c ≠ (x, y) ∧ cell_at g c.1 c.2 = Some p)
                           (rectangle_cells 3 3 (x - 1) (y - 1)))).

(** The two grids of an engine have [h] rows of [w] cells. *)
Definition well_formed (s : GameOfLife) (h w : nat) : Prop :=
  rectangular (grid s) h w ∧ rectangular (next_grid s) h w.

(** ** Concrete grids and engines used below *)

Definition zero_beyond : Z → Z → ascii := λ _ _, "000"%char.

Definition star : ascii := "*"%char.

Definition grid_1x1 : grid_t := [[blank]].

Definition column_3x1 : grid_t := [[star]; [star]; [star]].

Definition blinker : grid_t :=
  [[blank; blank; blank];
   [star; star; star];
   [blank; blank; blank]].

Definition blank_3x3 : grid_t :=
  [[blank; blank; blank];
   [blank; blank; blank];
   [blank; blank; blank]].

Definition blinker_engine : GameOfLife :=
  mkGameOfLife blinker blank_3x3 star false.

Definition vertical_blinker : grid_t :=
  [[blank; star; blank];
   [blank; star; blank];
   [blank; star; blank]].

Definition blank_engine : GameOfLife :=
  mkGameOfLife blank_3x3 blank_3x3 star false.

(** A block of four alive cells at the end of a grid of four rows and two
    columns. *)
Definition tall_block : grid_t :=
  [[blank; blank];
   [blank; blank];
   [star; star];
   [star; star]].

Definition tall_engine : GameOfLife :=
  mkGameOfLife tall_block
    [[blank; blank]; [blank; blank]; [blank; blank]; [blank; blank]]
    star false.

Definition corner_engine : GameOfLife :=
  mkGameOfLife [[star; star]; [star; blank]]
               [[blank; blank]; [blank; blank]] star false.

(** * Properties *)

(** ** Loops as folds over lists *)

Lemma for_range_empty {S : Type} lo hi (body : Z → S → S) s :
  hi ≤ lo → for_range lo hi body s = s.
Proof. intros. unfold for_range. by rewrite seqZ_nil by lia. Qed.

Lemma for_range_collect {A : Type} lo hi (f : Z → A) (acc : list A) :
  for_range lo hi (λ i l, l ++ [f i]) acc = acc ++ (f <$> seqZ lo (hi - lo)).
Proof.
  unfold for_range. generalize (seqZ lo (hi - lo)) as l.
  intros l. revert acc. induction l as [|a l IH]; intros acc; simpl.
  - by rewrite app_nil_r.
  - rewrite IH. by rewrite <- app_assoc.
Qed.

Lemma for_range_nested {S : Type} (f : S → Z → Z → S) h w x y s :
  for_range x (x + h) (λ i s, for_range y (y + w) (λ j s, f s i j) s) s =
  foldl (λ s c, f s c.1 c.2) s (rectangle_cells h w x y).
Proof.
  unfold for_range, rectangle_cells.
  replace (x + h - x) with h by lia. replace (y + w - y) with w by lia.
  generalize (seqZ x h) as rows. intros rows. revert s.
  induction rows as [|i rows IH]; intros s; simpl; [done|].
  rewrite foldl_app, <- IH. f_equal.
  generalize (seqZ y w) as cols. intros cols. revert s.
  induction cols as [|j cols IHc]; intros s; simpl; [done|]. apply IHc.
Qed.

Lemma elem_of_rectangle_cells h w x y i j :
  (i, j) ∈ rectangle_cells h w x y ↔ x ≤ i < x + h ∧ y ≤ j < y + w.
Proof.
  unfold rectangle_cells. rewrite list_elem_of_bind. split.
  - intros (i' & Hin & Hi'). apply list_elem_of_fmap in Hin as (j' & Heq & Hj').
    inversion Heq; subst. apply elem_of_seqZ in Hi', Hj'. lia.
  - intros [Hi Hj]. exists i. split; [|by apply elem_of_seqZ].
    apply list_elem_of_fmap. exists j. split; [done|by apply elem_of_seqZ].
Qed.

Lemma band_cells_rectangle b :
  band_cells b =
  rectangle_cells (band_height b) (band_width b) (band_start_x b) (band_start_y b).
Proof.
  unfold band_cells.
  rewrite (for_range_nested (λ cells i j, cells ++ [(i, j)])).
  enough (∀ l acc, foldl (λ (cells : list (Z * Z)) c, cells ++ [(c.1, c.2)]) acc l
                   = acc ++ l) as Hfold by apply (Hfold _ []).
  intros l. induction l as [|[i j] l IH]; intros acc; simpl.
  - by rewrite app_nil_r.
  - rewrite IH. by rewrite <- app_assoc.
Qed.

(** ** Reading and writing cells *)

Lemma cell_at_set_cell g a b c i j :
  cell_at (set_cell g a b c) i j =
  if decide ((a, b) = (i, j)) then (λ _, c) <$> cell_at g i j else cell_at g i j.
Proof.
  unfold cell_at, set_cell.
  destruct (Z.leb_spec 0 i), (Z.leb_spec 0 j); cbn [andb];
    try (case_decide; [by destruct (_ && _)|done]);
    try (by case_decide).
  destruct (Z.leb_spec 0 a), (Z.leb_spec 0 b); cbn [andb];
    try (rewrite decide_False; [done|intros [=]; lia]).
  destruct (decide (Z.to_nat a = Z.to_nat i)) as [Hai|Hai].
  - rewrite Hai, list_lookup_alter_eq.
    destruct (g !! Z.to_nat i) as [row|]; [|by case_decide].
    cbn [fmap option_fmap option_map mbind option_bind].
    destruct (decide (Z.to_nat b = Z.to_nat j)) as [Hbj|Hbj].
    + rewrite Hbj. rewrite decide_True by (f_equal; lia).
      destruct (row !! Z.to_nat j) eqn:Hrow.
      * by rewrite list_lookup_insert_eq by (by eapply lookup_lt_Some).
      * rewrite list_insert_ge by (by apply lookup_ge_None).
        by rewrite Hrow.
    + rewrite list_lookup_insert_ne by done.
      rewrite decide_False; [done|]. intros [=]. lia.
  - rewrite list_lookup_alter_ne by done.
    rewrite decide_False; [done|]. intros [=]. lia.
Qed.

(** A sequence of writes [g[i][j] = v (i, j)] leaves at each place the value
    [v] of that place if the place was written, and the old cell if not. *)
Lemma cell_at_writes (v : Z * Z → ascii) (l : list (Z * Z)) (g : list (list ascii)) i j :
  cell_at (foldl (λ g c, set_cell g c.1 c.2 (v c)) g l) i j =
  if decide ((i, j) ∈ l) then (λ _, v (i, j)) <$> cell_at g i j
  else cell_at g i j.
Proof.
  revert g. induction l as [|[a b] l IH]; intros g; cbn [foldl].
  - rewrite decide_False; [done|]. apply not_elem_of_nil.
  - rewrite IH, cell_at_set_cell. cbn [fst snd].
    destruct (decide ((a, b) = (i, j))) as [[= -> ->]|Hne].
    + rewrite (decide_True (P := (i, j) ∈ (i, j) :: l)) by left.
      destruct (decide ((i, j) ∈ l)); [by destruct (cell_at g i j)|done].
    + destruct (decide ((i, j) ∈ l)) as [Hin|Hnin].
      * by rewrite (decide_True (P := (i, j) ∈ (a, b) :: l)) by (by right).
      * rewrite (decide_False (P := (i, j) ∈ (a, b) :: l)); [done|].
        intros [?|?]%elem_of_cons; congruence.
Qed.

Lemma length_set_cell (g : list (list ascii)) i j c :
  length (set_cell g i j c) = length g.
Proof. unfold set_cell. destruct (_ && _); [apply length_alter|done]. Qed.

Lemma rectangular_set_cell (g : list (list ascii)) h w i j c :
  rectangular g h w → rectangular (set_cell g i j c) h w.
Proof.
  intros [Hh Hw]. split; [by rewrite length_set_cell|].
  unfold set_cell. destruct (_ && _); [|done].
  apply Forall_alter; [done|]. intros row _ Hrow.
  by rewrite length_insert.
Qed.

Lemma cell_at_rectangular (g : list (list ascii)) h w i j :
  rectangular g h w →
  is_Some (cell_at g i j) ↔ 0 ≤ i < Z.of_nat h ∧ 0 ≤ j < Z.of_nat w.
Proof.
  intros [Hh Hw]. unfold cell_at.
  destruct (Z.leb_spec 0 i), (Z.leb_spec 0 j); cbn [andb];
    try (split; [by intros [? [=]]|lia]).
  destruct (g !! Z.to_nat i) as [row|] eqn:Hrow; simpl.
  - assert (length row = w) as <-.
    { eapply (Forall_lookup_1 _ _ _ _ Hw), Hrow. }
    apply lookup_lt_Some in Hrow. rewrite lookup_lt_is_Some. lia.
  - apply lookup_ge_None in Hrow. split; [by intros [? [=]]|lia].
Qed.

(** Two writes of values that depend on the place only can be exchanged. *)
Lemma set_cell_exchange (v : Z * Z → ascii) (g : list (list ascii)) c1 c2 :
  set_cell (set_cell g c1.1 c1.2 (v c1)) c2.1 c2.2 (v c2) =
  set_cell (set_cell g c2.1 c2.2 (v c2)) c1.1 c1.2 (v c1).
Proof.
  destruct c1 as [a b], c2 as [a' b']; simpl.
  destruct (decide ((a, b) = (a', b'))) as [[= -> ->]|Hne]; [done|].
  unfold set_cell.
  destruct (Z.leb_spec 0 a), (Z.leb_spec 0 b); cbn [andb]; try done;
    destruct (Z.leb_spec 0 a'), (Z.leb_spec 0 b'); cbn [andb]; try done.
  destruct (decide (Z.to_nat a = Z.to_nat a')) as [Ha|Ha].
  - rewrite Ha, !list_alter_alter_eq. apply list_alter_ext; [|done].
    intros row _. simpl. apply list_insert_insert_ne.
    intros Hb. apply Hne. f_equal; lia.
  - by rewrite list_alter_alter_ne by done.
Qed.

(** A fold of operations that can be exchanged does not depend on the order
    of the list. *)
Lemma foldl_exchange {S A : Type} (f : S → A → S) :
  (∀ s a b, f (f s a) b = f (f s b) a) →
  ∀ l1 l2, l1 ≡ₚ l2 → ∀ s, foldl f s l1 = foldl f s l2.
Proof.
  intros Hf l1 l2 Hperm.
  induction Hperm as [|a l1 l2 _ IH|a b l|l1 l2 l3 _ IH1 _ IH2]; intros s; simpl.
  - done.
  - apply IH.
  - by rewrite Hf.
  - by rewrite IH1.
Qed.

(** ** One pass of the transition rule *)

Section Pass.

Variable beyond : Z → Z → ascii.

(** The four assignments of the loop body write the value of the rule. *)
Lemma check_cell_rule s i j :
  check_cell beyond s i j =
  set_next s i j (written beyond (grid s) (particle s) (i, j)).
Proof.
  unfold check_cell, written, rule. cbn [fst snd].
  destruct (Ascii.eqb (read beyond (grid s) i j) (particle s)); cbn [andb].
  - destruct (Z.ltb_spec (check_neighbors beyond (grid s) (particle s) i j) 2),
      (Z.gtb_spec (check_neighbors beyond (grid s) (particle s) i j) 3),
      (Z.eqb_spec (check_neighbors beyond (grid s) (particle s) i j) 2),
      (Z.eqb_spec (check_neighbors beyond (grid s) (particle s) i j) 3);
      cbn [orb andb]; try done; try lia;
      by destruct (Ascii.eqb _ blank).
  - by destruct (Ascii.eqb _ blank && _).
Qed.

(** A schedule of cell visits changes the next grid only, by the writes of
    the values of the rule computed on the current grid. *)
Lemma run_schedule_writes s schedule :
  run_schedule beyond s schedule =
  mkGameOfLife (grid s)
    (foldl (λ g c, set_cell g c.1 c.2 (written beyond (grid s) (particle s) c))
           (next_grid s) schedule)
    (particle s) (stale s).
Proof.
  unfold run_schedule. revert s.
  induction schedule as [|[i j] l IH]; intros s; cbn [foldl fst snd].
  - by destruct s.
  - rewrite IH, check_cell_rule. done.
Qed.

Lemma check_bounded_schedule s height width start_x start_y :
  check_bounded beyond s height width start_x start_y =
  run_schedule beyond s (rectangle_cells height width start_x start_y).
Proof.
  unfold check_bounded, run_schedule.
  apply (for_range_nested (λ s i j, check_cell beyond s i j)).
Qed.

Lemma check_schedule s :
  check beyond s =
  run_schedule beyond s
    (rectangle_cells (Grid_height (grid s)) (Grid_width (grid s)) 0 0).
Proof.
  unfold check, run_schedule. cbv zeta.
  apply (for_range_nested (λ s i j, check_cell beyond s i j)
           (Grid_height (grid s)) (Grid_width (grid s)) 0 0).
Qed.

Lemma run_schedule_permutation s l1 l2 :
  l1 ≡ₚ l2 → run_schedule beyond s l1 = run_schedule beyond s l2.
Proof.
  intros Hperm. rewrite !run_schedule_writes. f_equal.
  apply foldl_exchange; [|done].
  intros g a b. apply (set_cell_exchange (written beyond (grid s) (particle s))).
Qed.

Lemma run_schedule_app s l1 l2 :
  run_schedule beyond s (l1 ++ l2) =
  run_schedule beyond (run_schedule beyond s l1) l2.
Proof. unfold run_schedule. apply foldl_app. Qed.

Lemma read_cell_at g i j c : cell_at g i j = Some c → read beyond g i j = c.
Proof. unfold read. by intros ->. Qed.

End Pass.

(** ** Neighbour counting at the edge of the grid *)

Lemma for_range_ext {S : Type} lo hi (body1 body2 : Z → S → S) s :
  (∀ i s, lo ≤ i < hi → body1 i s = body2 i s) →
  for_range lo hi body1 s = for_range lo hi body2 s.
Proof.
  intros Hbody. unfold for_range.
  assert (∀ i, i ∈ seqZ lo (hi - lo) → lo ≤ i < hi) as Hin.
  { intros i Hi%elem_of_seqZ. lia. }
  revert s Hin. induction (seqZ lo (hi - lo)) as [|i l IH]; intros s Hin.
  - done.
  - cbn [foldl]. rewrite Hbody by (apply Hin; left).
    apply IH. intros k Hk. apply Hin. by right.
Qed.

Lemma for_range_skip {S : Type} lo hi (body : Z → S → S) s :
  (∀ i s, body i s = s) → for_range lo hi body s = s.
Proof.
  intros Hbody. unfold for_range. induction (seqZ lo (hi - lo)) as [|i l IH].
  - done.
  - cbn [foldl]. by rewrite Hbody.
Qed.

Section Neighbours.

Variable beyond : Z → Z → ascii.

(** The two loops of [check_neighbors] visit the 3 by 3 places around
    [(x, y)]; a place that passes the three tests is read and adds one to
    the count when it holds the particle. *)
Lemma check_neighbors_traced_fold g p x y :
  check_neighbors_traced beyond g p x y =
  foldl (λ st c,
    if neighbor_read (Grid_height g) (Grid_width g) x y c
    then (if Ascii.eqb (read beyond g c.1 c.2) p then st.1 + 1 else st.1,
          st.2 ++ [c])
    else st) (0, []) (rectangle_cells 3 3 (x - 1) (y - 1)).
Proof.
  transitivity (foldl (λ (st : Z * list (Z * Z)) c,
    if neighbor_read (Grid_height g) (Grid_width g) x y (c.1, c.2)
    then (if Ascii.eqb (read beyond g c.1 c.2) p then st.1 + 1 else st.1,
          st.2 ++ [(c.1, c.2)])
    else st) (0, []) (rectangle_cells 3 3 (x - 1) (y - 1))).
  - unfold check_neighbors_traced.
    rewrite <- (for_range_nested (λ st i j,
      if neighbor_read (Grid_height g) (Grid_width g) x y (i, j)
      then (if Ascii.eqb (read beyond g i j) p then st.1 + 1 else st.1,
            st.2 ++ [(i, j)])
      else st)).
    replace (x - 1 + 3) with (x + 1 + 1) by lia.
    replace (y - 1 + 3) with (y + 1 + 1) by lia.
    apply for_range_ext. intros i st _.
    unfold neighbor_read. cbn [fst snd].
    destruct ((i <? 0) || (i >=? Grid_height g)); cbn [negb andb].
    + symmetry. by apply for_range_skip.
    + apply for_range_ext. intros j [count reads] _. cbn [fst snd].
      destruct ((j <? 0) || (i >=? Grid_width g)); cbn [negb andb]; [done|].
      by destruct (negb (i =? x) || negb (j =? y)).
  - generalize (0, @nil (Z * Z)) as st.
    induction (rectangle_cells 3 3 (x - 1) (y - 1)) as [|[i j] l IH];
      intros st; [done|].
    cbn [foldl fst snd]. apply IH.
Qed.

Lemma traced_fold_reads (P : Z * Z → bool) (v : Z * Z → bool)
    (l : list (Z * Z)) (st : Z * list (Z * Z)) :
  let result :=
    foldl (λ st c, if P c then (if v c then st.1 + 1 else st.1, st.2 ++ [c])
                   else st) st l in
  result.2 = st.2 ++ filter (λ c, P c = true) l ∧
  result.1 = st.1 + Z.of_nat (length (filter (λ c, v c = true)
                                        (filter (λ c, P c = true) l))).
Proof.
  revert st. induction l as [|c l IH]; intros [count reads]; cbn [foldl fst snd].
  - rewrite app_nil_r. split; [done|]. simpl. lia.
  - destruct (IH (if P c then (if v c then count + 1 else count, reads ++ [c])
                  else (count, reads))) as [-> ->].
    rewrite (filter_cons (λ c, P c = true)).
    destruct (P c) eqn:HP; cbn [fst snd].
    + rewrite decide_True by done. rewrite <- app_assoc. split; [done|].
      rewrite (filter_cons (λ c, v c = true)).
      destruct (v c) eqn:Hv.
      * rewrite decide_True by done. simpl. lia.
      * rewrite decide_False by done. done.
    + rewrite decide_False by done. done.
Qed.

(** The places read by [check_neighbors]: those of the 3 by 3 places around
    [(x, y)] that pass the three tests of the code. *)
Lemma check_neighbors_reads_filter g p x y :
  check_neighbors_reads beyond g p x y =
  filter (λ c, neighbor_read (Grid_height g) (Grid_width g) x y c = true)
         (rectangle_cells 3 3 (x - 1) (y - 1)).
Proof.
  unfold check_neighbors_reads. rewrite check_neighbors_traced_fold.
  by destruct (traced_fold_reads
                 (neighbor_read (Grid_height g) (Grid_width g) x y)
                 (λ c, Ascii.eqb (read beyond g c.1 c.2) p)
                 (rectangle_cells 3 3 (x - 1) (y - 1)) (0, [])) as [-> _].
Qed.

(** The count is the number of places read that hold the particle. *)
Lemma check_neighbors_count g p x y :
  check_neighbors beyond g p x y =
  Z.of_nat (length (filter (λ c, Ascii.eqb (read beyond g c.1 c.2) p = true)
                           (check_neighbors_reads beyond g p x y))).
Proof.
  rewrite check_neighbors_reads_filter.
  unfold check_neighbors. rewrite check_neighbors_traced_fold.
  by destruct (traced_fold_reads
                 (neighbor_read (Grid_height g) (Grid_width g) x y)
                 (λ c, Ascii.eqb (read beyond g c.1 c.2) p)
                 (rectangle_cells 3 3 (x - 1) (y - 1)) (0, [])) as [_ ->].
Qed.

(** On every grid with a cell the count for the last cell of the first row
    reads the column equal to the width. *)
Lemma check_neighbors_reads_past_row g p :
  1 ≤ Grid_height g → 1 ≤ Grid_width g →
  (0, Grid_width g) ∈ check_neighbors_reads beyond g p 0 (Grid_width g - 1).
Proof.
  intros Hh Hw. rewrite check_neighbors_reads_filter.
  apply list_elem_of_filter. split; [|apply elem_of_rectangle_cells; lia].
  unfold neighbor_read. cbn [fst snd].
  destruct (Z.ltb_spec 0 0), (Z.geb_spec 0 (Grid_height g)),
    (Z.ltb_spec (Grid_width g) 0), (Z.geb_spec 0 (Grid_width g)),
    (Z.eqb_spec (Grid_width g) (Grid_width g - 1)); try lia; done.
Qed.

(** No cell is read in a row whose index reaches the width. *)
Lemma check_neighbors_skips_row g p x y i j :
  Grid_width g ≤ i → (i, j) ∉ check_neighbors_reads beyond g p x y.
Proof.
  intros Hi. rewrite check_neighbors_reads_filter.
  intros [Hread _]%list_elem_of_filter. revert Hread.
  unfold neighbor_read. cbn [fst snd].
  destruct (Z.geb_spec i (Grid_width g)); [|lia].
  by rewrite orb_true_r, andb_false_r.
Qed.

End Neighbours.

(** C1. Counting reads only places inside the grid and counts every alive
    neighbour inside the grid once: the code does not. On the grid of one
    cell the count for [(0, 0)] evaluates [grid[0][1]], a column equal to the
    width, where the grid has no cell. On the square grid of the blinker the
    count for [(1, 2)] evaluates the three places of column 3, and is 4
    instead of 1 when the bytes found there are the particle. On the grid of
    three rows and one column, all alive, the count for [(2, 0)] is 0 and no
    cell is read, although the alive cell [(1, 0)] is next to it inside the
    grid. *)
Theorem check_neighbors_column_guard :
  (∀ beyond p, check_neighbors_reads beyond grid_1x1 p 0 0 = [(0, 1)]) ∧
  Grid_width grid_1x1 = 1 ∧
  cell_at grid_1x1 0 1 = None ∧
  (∀ beyond p, check_neighbors_reads beyond blinker p 1 2 =
     [(0, 1); (0, 2); (0, 3); (1, 1); (1, 3); (2, 1); (2, 2); (2, 3)]) ∧
  Grid_width blinker = 3 ∧
  check_neighbors (λ _ _, star) blinker star 1 2 = 4 ∧
  (∀ beyond, check_neighbors beyond column_3x1 star 2 0 = 0) ∧
  (∀ beyond, check_neighbors_reads beyond column_3x1 star 2 0 = []) ∧
  cell_at column_3x1 1 0 = Some star.
Proof. repeat split. Qed.

(** ** The transition rule over a band *)

(** A pass of [check_bounded] over a band that lies inside both grids
    writes, at every place of the band, the value of the rule for the cell of
    the current grid and the count that [check_neighbors] returns for it.
    The current grid, the particle and the flag are unchanged, and so are
    the cells of the next grid outside the band. *)
Lemma check_bounded_applies_rule beyond s height width start_x start_y :
  (∀ i j, start_x ≤ i < start_x + height → start_y ≤ j < start_y + width →
     is_Some (cell_at (grid s) i j) ∧ is_Some (cell_at (next_grid s) i j)) →
  let s' := check_bounded beyond s height width start_x start_y in
  grid s' = grid s ∧ particle s' = particle s ∧ stale s' = stale s ∧
  (∀ i j, start_x ≤ i < start_x + height → start_y ≤ j < start_y + width →
     ∃ c, cell_at (grid s) i j = Some c ∧
          cell_at (next_grid s') i j =
            Some (rule (particle s) c
                    (check_neighbors beyond (grid s) (particle s) i j))) ∧
  (∀ i j, ¬ (start_x ≤ i < start_x + height ∧ start_y ≤ j < start_y + width) →
     cell_at (next_grid s') i j = cell_at (next_grid s) i j).
Proof.
  intros Hin s'. subst s'.
  rewrite check_bounded_schedule, run_schedule_writes. cbn [grid next_grid particle stale].
  repeat split.
  - intros i j Hi Hj. destruct (Hin i j Hi Hj) as [[c Hc] [c' Hc']].
    exists c. split; [done|].
    rewrite cell_at_writes, decide_True by (by apply elem_of_rectangle_cells).
    rewrite Hc'. unfold written. cbn [fst snd fmap option_fmap option_map].
    by rewrite (read_cell_at beyond _ _ _ _ Hc).
  - intros i j Hout. rewrite cell_at_writes, decide_False; [done|].
    by rewrite elem_of_rectangle_cells.
Qed.

(** C2. A pass writes, for every cell, the value of the rule for the cell
    and the number of its alive neighbours: the code does not. On the grid
    of four rows and two columns with a block of four alive cells in rows 2
    and 3, the alive cell [(2, 0)] has three alive neighbours, and the rule
    keeps such a cell alive. The count of the code for it is 0, whatever
    lies past the rows: the column test of [check_neighbors] skips the rows
    2 and 3, which are not below the width. The pass over the whole grid,
    by [check_bounded] and by [check], writes the blank at [(2, 0)]. The
    current grid is not changed by the pass. *)
Theorem check_bounded_block_dies :
  cell_at tall_block 2 0 = Some star ∧
  alive_neighbors tall_block star 2 0 = 3 ∧
  rule star star 3 = star ∧
  (∀ beyond, check_neighbors beyond tall_block star 2 0 = 0) ∧
  (∀ beyond,
     cell_at (next_grid (check_bounded beyond tall_engine 4 2 0 0)) 2 0
     = Some blank) ∧
  (∀ beyond, cell_at (next_grid (check beyond tall_engine)) 2 0 = Some blank) ∧
  (∀ beyond, grid (check_bounded beyond tall_engine 4 2 0 0) = tall_block).
Proof.
  assert (∀ beyond,
            cell_at (next_grid (check_bounded beyond tall_engine 4 2 0 0)) 2 0
            = Some blank ∧
            grid (check_bounded beyond tall_engine 4 2 0 0) = tall_block)
    as Hpass.
  { intros beyond.
    destruct (check_bounded_applies_rule beyond tall_engine 4 2 0 0)
      as (Hgrid & _ & _ & Hband & _).
    { intros i j Hi Hj.
      assert (i = 0 ∨ i = 1 ∨ i = 2 ∨ i = 3) as [->|[->|[->| ->]]] by lia;
        assert (j = 0 ∨ j = 1) as [->| ->] by lia;
        split; eexists; reflexivity. }
    split; [|exact Hgrid].
    destruct (Hband 2 0) as (c & Hc & Hwritten); [lia|lia|].
    etrans; [exact Hwritten|].
    vm_compute in Hc. injection Hc as <-.
    vm_compute. reflexivity. }
  split; [reflexivity|]. split; [vm_compute; reflexivity|].
  split; [reflexivity|].
  split; [intros beyond; vm_compute; reflexivity|].
  split; [intros beyond; apply (Hpass beyond)|].
  split; [|intros beyond; apply (Hpass beyond)].
  intros beyond.
  assert (check beyond tall_engine = check_bounded beyond tall_engine 4 2 0 0)
    as -> by (unfold check, check_bounded; reflexivity).
  apply (Hpass beyond).
Qed.

(** ** The partition into bands *)

(** The band given to thread [i] by the loop of [check_multithread]. *)
Lemma spawn_threads_fmap g num_threads :
  spawn_threads g num_threads =
  (λ i, mkBand (if i =? num_threads - 1
                then Grid_height g `quot` num_threads
                     + Grid_height g `rem` num_threads
                else Grid_height g `quot` num_threads)
               (Grid_width g) (i * (Grid_height g `quot` num_threads)) 0)
  <$> seqZ 0 num_threads.
Proof.
  unfold spawn_threads. cbv zeta.
  erewrite for_range_ext; [rewrite for_range_collect|].
  - rewrite Z.sub_0_r. done.
  - intros i threads _. cbv beta. by destruct (i =? num_threads - 1).
Qed.

Lemma spawn_threads_lookup g num_threads k b :
  spawn_threads g num_threads !! k = Some b ↔
  Z.of_nat k < num_threads ∧
  b = mkBand (if Z.of_nat k =? num_threads - 1
              then Grid_height g `quot` num_threads
                   + Grid_height g `rem` num_threads
              else Grid_height g `quot` num_threads)
             (Grid_width g)
             (Z.of_nat k * (Grid_height g `quot` num_threads)) 0.
Proof.
  rewrite spawn_threads_fmap, list_lookup_fmap, fmap_Some.
  setoid_rewrite lookup_seqZ. split.
  - intros (i & [-> Hk] & ->). by rewrite Z.add_0_l.
  - intros [Hk ->]. exists (Z.of_nat k). by rewrite Z.add_0_l.
Qed.

(** C3. For [1 <= N <= H] the partitioner creates [N] bands; band [i] is the
    band of the specification: full width, rows from [i * (H / N)] up to
    [(i + 1) * (H / N)], and up to [H] for the last band, which so takes the
    [H mod N] rows that remain. Every band lies inside the grid and every row
    of the grid belongs to exactly one band. *)
Theorem spawn_threads_partition (g : list (list ascii)) (N : Z) :
  1 ≤ N ≤ Grid_height g →
  let H := Grid_height g in
  let bands := spawn_threads g N in
  length bands = Z.to_nat N ∧
  (∀ i, 0 ≤ i < N →
     bands !! Z.to_nat i = Some (spec_band H (Grid_width g) N i) ∧
     ∀ r, band_rows (spec_band H (Grid_width g) N i) r ↔
          i * (H `div` N) ≤ r < (if i =? N - 1 then H else (i + 1) * (H `div` N))) ∧
  (∀ k b r, bands !! k = Some b → band_rows b r → 0 ≤ r < H) ∧
  (∀ r, 0 ≤ r < H →
     ∃ i, 0 ≤ i < N ∧
          ∀ k b, bands !! k = Some b → (band_rows b r ↔ k = Z.to_nat i)).
Proof.
  intros HN H bands. subst bands.
  assert (0 ≤ H) as HH by (unfold H, Grid_height; lia).
  assert (Grid_height g `quot` N = H `div` N) as Hq
    by (apply Z.quot_div_nonneg; lia).
  assert (Grid_height g `rem` N = H `mod` N) as Hr
    by (apply Z.rem_mod_nonneg; lia).
  pose proof (Z.div_mod H N ltac:(lia)) as Hdm.
  pose proof (Z.mod_pos_bound H N ltac:(lia)) as Hmod.
  assert (1 ≤ H `div` N) as Hstep.
  { apply Z.div_le_lower_bound; lia. }
  set (q := H `div` N) in *. set (m := H `mod` N) in *.
  assert (∀ k b, spawn_threads g N !! k = Some b →
            Z.of_nat k < N ∧
            b = mkBand (if Z.of_nat k =? N - 1 then q + m else q)
                       (Grid_width g) (Z.of_nat k * q) 0) as Hlook.
  { intros k b Hk. apply spawn_threads_lookup in Hk. by rewrite Hq, Hr in Hk. }
  split; [|split; [|split]].
  - by rewrite spawn_threads_fmap, length_fmap, length_seqZ.
  - intros i Hi. split.
    + apply spawn_threads_lookup. rewrite Z2Nat.id by lia.
      split; [lia|]. unfold spec_band. by rewrite Hq, Hr.
    + intros r. unfold band_rows, spec_band. simpl.
      destruct (Z.eqb_spec i (N - 1)); nia.
  - intros k b r Hk Hb. apply Hlook in Hk as [Hk ->].
    unfold band_rows in Hb. simpl in Hb.
    destruct (Z.eqb_spec (Z.of_nat k) (N - 1)); nia.
  - intros r Hr'. exists (Z.min (r `div` q) (N - 1)).
    pose proof (Z.div_mod r q ltac:(lia)) as Hrq.
    pose proof (Z.mod_pos_bound r q ltac:(lia)) as Hrm.
    assert (0 ≤ r `div` q) by (apply Z.div_pos; lia).
    split; [lia|]. intros k b Hk. apply Hlook in Hk as [Hk ->].
    unfold band_rows. simpl.
    destruct (Z.eqb_spec (Z.of_nat k) (N - 1)); split; intros Hkr; nia.
Qed.

Lemma spawn_threads_partition_witness :
  let H := Grid_height blinker in
  let bands := spawn_threads blinker 2 in
  length bands = Z.to_nat 2 ∧
  (∀ i, 0 ≤ i < 2 →
     bands !! Z.to_nat i = Some (spec_band H (Grid_width blinker) 2 i) ∧
     ∀ r, band_rows (spec_band H (Grid_width blinker) 2 i) r ↔
          i * (H `div` 2) ≤ r < (if i =? 2 - 1 then H else (i + 1) * (H `div` 2))) ∧
  (∀ k b r, bands !! k = Some b → band_rows b r → 0 ≤ r < H) ∧
  (∀ r, 0 ≤ r < H →
     ∃ i, 0 ≤ i < 2 ∧
          ∀ k b, bands !! k = Some b → (band_rows b r ↔ k = Z.to_nat i)).
Proof. apply (spawn_threads_partition blinker 2). vm_compute. by split. Defined.

(** ** The banded pass and the full pass *)

(** The rows of the bands, one band after the other, are the rows of the
    grid in order. *)
Lemma band_rows_in_order (H N : Z) :
  0 ≤ H → 1 ≤ N →
  (seqZ 0 N ≫= λ i, seqZ (i * (H `quot` N))
                      (if i =? N - 1 then H `quot` N + H `rem` N
                       else H `quot` N))
  = seqZ 0 H.
Proof.
  intros HH HN.
  pose proof (Z.quot_rem' H N) as Hqr.
  pose proof (Z.rem_nonneg H N ltac:(lia) HH) as Hm.
  assert (0 ≤ H `quot` N) as Hq by (apply Z.quot_pos; lia).
  set (q := H `quot` N) in *. set (m := H `rem` N) in *.
  assert (∀ n : nat, Z.of_nat n ≤ N - 1 →
            (seqZ 0 (Z.of_nat n) ≫= λ i, seqZ (i * q)
               (if i =? N - 1 then q + m else q))
            = seqZ 0 (Z.of_nat n * q)) as Hregular.
  { induction n as [|n IH]; intros Hn; [done|].
    rewrite seqZ_S, bind_app, IH by lia. cbn [mbind list_bind app].
    rewrite Z.add_0_l, app_nil_r.
    destruct (Z.eqb_spec (Z.of_nat n) (N - 1)); [lia|].
    rewrite <- (Z.add_0_l (Z.of_nat n * q)) at 2.
    rewrite <- seqZ_app by nia. f_equal. lia. }
  replace N with (Z.of_nat (S (Z.to_nat (N - 1)))) at 1 by lia.
  rewrite seqZ_S, bind_app, Hregular by lia. cbn [mbind list_bind app].
  rewrite Z.add_0_l, app_nil_r, Z2Nat.id by lia.
  rewrite Z.eqb_refl.
  rewrite <- (Z.add_0_l ((N - 1) * q)) at 2.
  rewrite <- seqZ_app by nia. f_equal. lia.
Qed.

Lemma spawn_threads_cells (g : list (list ascii)) N :
  1 ≤ N →
  spawn_threads g N ≫= band_cells =
  rectangle_cells (Grid_height g) (Grid_width g) 0 0.
Proof.
  intros HN. rewrite spawn_threads_fmap, list_fmap_bind.
  unfold rectangle_cells at 1.
  rewrite <- (band_rows_in_order (Grid_height g) N)
    by (unfold Grid_height; lia).
  induction (seqZ 0 N) as [|i l IH]; [done|].
  rewrite !bind_cons, bind_app, IH. f_equal.
  cbn [compose]. by rewrite band_cells_rectangle.
Qed.

Lemma Interleaving_nil_thread {A : Type} (threads : list (list A)) schedule :
  Interleaving threads schedule → Interleaving ([] :: threads) schedule.
Proof.
  induction 1 as [threads Hdone|before a t after schedule _ IH].
  - constructor. by constructor.
  - apply (interleaving_step ([] :: before)), IH.
Qed.

(** Running the threads one after the other is one of the schedules. *)
Lemma Interleaving_in_order {A : Type} (threads : list (list A)) :
  Interleaving threads (mjoin threads).
Proof.
  induction threads as [|t threads IH]; [by constructor|].
  cbn [mjoin list_join]. induction t as [|a t IHt].
  - by apply Interleaving_nil_thread.
  - apply (interleaving_step [] a t threads), IHt.
Qed.

(** A schedule holds the steps of all threads, each once. *)
Lemma Interleaving_permutation {A : Type} (threads : list (list A)) schedule :
  Interleaving threads schedule → mjoin threads ≡ₚ schedule.
Proof.
  induction 1 as [threads Hdone|before a t after schedule _ IH].
  - induction Hdone as [|t threads -> _ IHd]; [done|]. apply IHd.
  - rewrite join_app in IH. rewrite join_app.
    cbn [mjoin list_join] in *. rewrite <- IH, <- app_comm_cons.
    symmetry. apply Permutation_middle.
Qed.

Section Banded.

Variable beyond : Z → Z → ascii.

Lemma run_threads_schedule s (bands : list band) :
  foldl (run_thread beyond) s bands =
  run_schedule beyond s (bands ≫= band_cells).
Proof.
  revert s. induction bands as [|b bands IH]; intros s; [done|].
  rewrite bind_cons, run_schedule_app, <- IH. cbn [foldl]. f_equal.
  unfold run_thread. by rewrite check_bounded_schedule, band_cells_rectangle.
Qed.

(** C4. For every worker count [N >= 1] (in particular for
    [1 <= N <= height]) the banded pass leaves the engine in the state of the
    full pass [check] on the same grid: when the threads run one after the
    other, and for every other order in which the cell visits of the threads
    can follow one another. *)
Theorem check_multithread_equals_check s N :
  1 ≤ N →
  check_multithread beyond s N = check beyond s ∧
  ∀ schedule,
    Interleaving (band_cells <$> spawn_threads (grid s) N) schedule →
    run_schedule beyond s schedule = check beyond s.
Proof.
  intros HN. split.
  - unfold check_multithread.
    by rewrite run_threads_schedule, spawn_threads_cells, check_schedule.
  - intros schedule Hsched%Interleaving_permutation.
    rewrite <- (run_schedule_permutation beyond s _ _ Hsched).
    rewrite check_schedule, <- (spawn_threads_cells (grid s) N HN).
    f_equal. generalize (spawn_threads (grid s) N) as bands.
    intros bands. induction bands as [|b bands IH]; [done|].
    rewrite fmap_cons, bind_cons, <- IH. done.
Qed.

End Banded.

Lemma check_multithread_equals_check_witness :
  check_multithread zero_beyond corner_engine 2 = check zero_beyond corner_engine ∧
  run_schedule zero_beyond corner_engine [(1, 0); (0, 0); (0, 1); (1, 1)]
  = check zero_beyond corner_engine.
Proof.
  destruct (check_multithread_equals_check zero_beyond corner_engine 2)
    as [Hseq Hall]; [lia|].
  split; [exact Hseq|]. apply Hall.
  change (Interleaving [[(0, 0); (0, 1)]; [(1, 0); (1, 1)]]
                       [(1, 0); (0, 0); (0, 1); (1, 1)]).
  apply (interleaving_step [[(0, 0); (0, 1)]] (1, 0) [(1, 1)] []).
  apply (interleaving_step [] (0, 0) [(0, 1)] [[(1, 1)]]).
  apply (interleaving_step [] (0, 1) [] [[(1, 1)]]).
  apply (interleaving_step [[]] (1, 1) [] []).
  apply interleaving_done. repeat constructor.
Defined.

(** ** One generation *)

Lemma row_eqb_eq r1 r2 : row_eqb r1 r2 = true ↔ r1 = r2.
Proof.
  revert r2. induction r1 as [|c1 r1 IH]; intros [|c2 r2]; simpl;
    try done.
  rewrite andb_true_iff, Ascii.eqb_eq, IH. split.
  - by intros [-> ->].
  - by intros [= -> ->].
Qed.

Lemma grid_eqb_eq g1 g2 : grid_eqb g1 g2 = true ↔ g1 = g2.
Proof.
  revert g2. induction g1 as [|r1 g1 IH]; intros [|r2 g2]; simpl;
    try done.
  rewrite andb_true_iff, row_eqb_eq, IH. split.
  - by intros [-> ->].
  - by intros [= -> ->].
Qed.

Section Generation.

Variable beyond : Z → Z → ascii.

Lemma check_multithread_frame s N :
  grid (check_multithread beyond s N) = grid s ∧
  particle (check_multithread beyond s N) = particle s ∧
  stale (check_multithread beyond s N) = stale s.
Proof.
  unfold check_multithread.
  by rewrite run_threads_schedule, run_schedule_writes.
Qed.

(** C5, as the code has it. When the grid computed by the pass equals the
    current grid, the step sets the flag and leaves the current grid as it
    is. Otherwise the computed grid is copied into the current grid: both
    grids then hold the next generation (they are not exchanged) and the flag
    keeps its value, so it stays false when it was false. *)
Theorem update_copies s :
  let computed := next_grid (check_multithread beyond s NUM_THREADS) in
  let s' := update beyond s in
  (computed = grid s → stale s' = true ∧ grid s' = grid s) ∧
  (computed ≠ grid s →
     grid s' = computed ∧ next_grid s' = computed ∧ stale s' = stale s).
Proof.
  intros computed s'. subst computed s'. unfold update. cbv zeta.
  destruct (check_multithread_frame s NUM_THREADS) as (Hg & _ & Hs).
  destruct (grid_eqb _ _) eqn:Heq; cbn [grid next_grid stale].
  - apply grid_eqb_eq in Heq. split; [by rewrite Hg|].
    intros Hne. rewrite <- Heq, Hg in Hne. done.
  - split; [|by rewrite Hs].
    intros Heq'. rewrite Heq', <- Hg in Heq.
    assert (grid_eqb (grid (check_multithread beyond s NUM_THREADS))
                     (grid (check_multithread beyond s NUM_THREADS)) = true)
      as Hrefl by (by apply grid_eqb_eq).
    congruence.
Qed.

End Generation.

Lemma update_copies_witness :
  (stale (update zero_beyond blank_engine) = true ∧
   grid (update zero_beyond blank_engine) = blank_3x3) ∧
  (grid (update zero_beyond blinker_engine) = vertical_blinker ∧
   next_grid (update zero_beyond blinker_engine) = vertical_blinker ∧
   stale (update zero_beyond blinker_engine) = false).
Proof.
  split.
  - apply (proj1 (update_copies zero_beyond blank_engine)). reflexivity.
  - apply (proj2 (update_copies zero_beyond blinker_engine)).
    vm_compute. discriminate.
Defined.

(** C5, as the specification words it, fails: after a step of the blinker
    the next grid holds the new generation, not the grid that was current
    before the step. *)
Lemma step_swaps_fails : ¬ step_swaps zero_beyond blinker_engine.
Proof.
  intros [_ Hswap]. destruct Hswap as (_ & Hnext & _).
  - vm_compute. discriminate.
  - vm_compute in Hnext. discriminate.
Qed.

(** ** Construction of a blank grid *)

Lemma size_t_of_int_nonneg n : 0 ≤ n < 2 ^ 31 → size_t_of_int n = n.
Proof. intros Hn. unfold size_t_of_int. apply Z.mod_small. lia. Qed.

Lemma size_t_of_int_negative n :
  - 2 ^ 31 ≤ n < 0 → size_t_of_int n = n + 2 ^ 64.
Proof.
  intros Hn. unfold size_t_of_int.
  rewrite <- (Z.mod_add n 1 (2 ^ 64)) by lia. apply Z.mod_small. lia.
Qed.

Lemma vector_fill_some {A : Type} max_size n (x : A) :
  2 ^ 31 ≤ max_size → 0 ≤ n < 2 ^ 31 →
  vector_fill max_size n x = Some (replicate (Z.to_nat n) x).
Proof.
  intros Hmax Hn. unfold vector_fill. rewrite size_t_of_int_nonneg by done.
  destruct (Z.gtb_spec n max_size); [lia|done].
Qed.

Lemma vector_fill_none {A : Type} max_size n (x : A) :
  max_size < 2 ^ 63 → - 2 ^ 31 ≤ n < 0 → vector_fill max_size n x = None.
Proof.
  intros Hmax Hn. unfold vector_fill. rewrite size_t_of_int_negative by done.
  destruct (Z.gtb_spec (n + 2 ^ 64) max_size); [done|lia].
Qed.

Lemma mapM_replicate_const {A B : Type} (n : nat) (a : A) (o : option B) :
  mapM (λ _ : A, o) (replicate n a) =
  match n with
  | O => Some []
  | S _ => replicate n <$> o
  end.
Proof.
  induction n as [|n IH]; [done|]. cbn [replicate mapM]. rewrite IH.
  destruct o as [b|]; [|done]. by destruct n.
Qed.

Lemma Grid_ctor_blank height length_ :
  0 ≤ height < 2 ^ 31 → 0 ≤ length_ < 2 ^ 31 →
  Grid_ctor height length_ =
  Some (replicate (Z.to_nat height) (replicate (Z.to_nat length_) blank)).
Proof.
  intros Hh Hl. unfold Grid_ctor.
  rewrite (vector_fill_some max_size_row height) by (done || by vm_compute).
  cbn [mbind option_bind]. rewrite mapM_replicate_const.
  rewrite (vector_fill_some max_size_char length_) by (done || by vm_compute).
  by destruct (Z.to_nat height).
Qed.

(** C9, as the code has it. For dimensions in the range of [int]: with
    [height >= 0] and [length >= 0] the constructor returns [height] rows of
    [length] blanks, which is a grid without cells when one of them is 0; it
    throws for [height < 0], and for [length < 0] when [height > 0]. *)
Theorem Grid_ctor_dimensions height length_ :
  - 2 ^ 31 ≤ height < 2 ^ 31 → - 2 ^ 31 ≤ length_ < 2 ^ 31 →
  (0 ≤ height → 0 ≤ length_ →
     Grid_ctor height length_ =
       Some (replicate (Z.to_nat height) (replicate (Z.to_nat length_) blank))) ∧
  (height = 0 → Grid_ctor height length_ = Some []) ∧
  (height < 0 → Grid_ctor height length_ = None) ∧
  (0 < height → length_ < 0 → Grid_ctor height length_ = None).
Proof.
  intros Hh Hl. repeat split.
  - intros. apply Grid_ctor_blank; lia.
  - intros ->. done.
  - intros Hneg. unfold Grid_ctor.
    by rewrite (vector_fill_none max_size_row height)
      by (lia || by vm_compute).
  - intros Hpos Hneg. unfold Grid_ctor.
    rewrite (vector_fill_some max_size_row height) by (lia || by vm_compute).
    cbn [mbind option_bind]. rewrite mapM_replicate_const.
    rewrite (vector_fill_none max_size_char length_)
      by (lia || by vm_compute).
    destruct (Z.to_nat height) eqn:Hn; [lia|done].
Qed.

Lemma Grid_ctor_dimensions_witness :
  (0 ≤ 2 → 0 ≤ 3 →
     Grid_ctor 2 3 =
       Some (replicate (Z.to_nat 2) (replicate (Z.to_nat 3) blank))) ∧
  (2 = 0 → Grid_ctor 2 3 = Some []) ∧
  (2 < 0 → Grid_ctor 2 3 = None) ∧
  (0 < 2 → 3 < 0 → Grid_ctor 2 3 = None).
Proof. apply (Grid_ctor_dimensions 2 3); lia. Defined.

(** C9, as the specification words it, fails: a height of 0 is not rejected,
    the constructor returns the grid without rows. *)
Lemma ctor_rejects_nonpositive_fails : ¬ ctor_rejects_nonpositive 0 5.
Proof.
  intros [_ Hreject]. specialize (Hreject ltac:(lia)). discriminate Hreject.
Qed.

(** ** Embedding a grid into a canvas *)

Lemma rectangular_height (g : list (list ascii)) h w :
  rectangular g h w → Grid_height g = Z.of_nat h.
Proof. intros [<- _]. done. Qed.

Lemma rectangular_width (g : list (list ascii)) h w :
  rectangular g h w → (0 < h)%nat → Grid_width g = Z.of_nat w.
Proof.
  intros [Hh Hw] Hpos. destruct g as [|row g]; simpl in *; [lia|].
  apply Forall_cons_1 in Hw as [Hrow _]. by rewrite Hrow.
Qed.

Lemma rectangular_replicate h w (c : ascii) :
  rectangular (replicate h (replicate w c)) h w.
Proof.
  split; [apply length_replicate|].
  apply Forall_replicate, length_replicate.
Qed.

Lemma cell_at_replicate h w (c : ascii) i j :
  0 ≤ i < Z.of_nat h → 0 ≤ j < Z.of_nat w →
  cell_at (replicate h (replicate w c)) i j = Some c.
Proof.
  intros Hi Hj. unfold cell_at.
  destruct (Z.leb_spec 0 i), (Z.leb_spec 0 j); try lia. cbn [andb].
  rewrite lookup_replicate_2 by lia. cbn [mbind option_bind].
  apply lookup_replicate_2. lia.
Qed.

(** Writes under a condition on the place. *)
Lemma cell_at_guarded_writes (P : Z * Z → bool) (v : Z * Z → ascii)
    (l : list (Z * Z)) (g : list (list ascii)) i j :
  cell_at (foldl (λ g c, if P c then set_cell g c.1 c.2 (v c) else g) g l) i j =
  if decide ((i, j) ∈ l ∧ P (i, j) = true)
  then (λ _, v (i, j)) <$> cell_at g i j
  else cell_at g i j.
Proof.
  revert g. induction l as [|[a b] l IH]; intros g; cbn [foldl].
  - rewrite decide_False; [done|]. intros [[]%elem_of_nil _].
  - rewrite IH. clear IH.
    destruct (decide ((i, j) ∈ l ∧ P (i, j) = true)) as [[Hin HP]|Hnot].
    + rewrite decide_True by (split; [by right|done]).
      destruct (P (a, b)); [|done].
      rewrite cell_at_set_cell. cbn [fst snd].
      case_decide; [|done]. by destruct (cell_at g i j).
    + destruct (decide ((a, b) = (i, j))) as [[= -> ->]|Hne].
      * destruct (P (i, j)) eqn:HP.
        -- rewrite decide_True by (split; [left|done]).
           rewrite cell_at_set_cell. cbn [fst snd].
           by rewrite decide_True.
        -- rewrite decide_False; [done|]. by intros [_ [=]].
      * rewrite decide_False.
        -- destruct (P (a, b)); [|done].
           rewrite cell_at_set_cell. cbn [fst snd].
           by rewrite decide_False.
        -- intros [[?|?]%elem_of_cons HP]; [congruence|].
           apply Hnot. by split.
Qed.

Section Embed.

Variable beyond : Z → Z → ascii.
Variables uninit_x uninit_y : Z.

Lemma write_cell_rectangular (g : list (list ascii)) h w i j c :
  rectangular g h w → 0 ≤ i < Z.of_nat h → 0 ≤ j < Z.of_nat w →
  write_cell g i j c = Some (set_cell g i j c).
Proof.
  intros Hrect Hi Hj. unfold write_cell.
  destruct (proj2 (cell_at_rectangular g h w i j Hrect) (conj Hi Hj))
    as [a ->]. done.
Qed.

(** On a rectangular canvas the two tests of the loop body of the
    constructor are the test that the place lies on the canvas, and every
    write that passes them is inside the canvas. *)
Lemma embed_guarded (other : list (list ascii)) start_x start_y h w :
  ∀ (l : list (Z * Z)) (this : list (list ascii)),
  rectangular this h w →
  let result :=
    foldl (λ this c,
      if in_canvas (Z.of_nat h) (Z.of_nat w) c
      then set_cell this c.1 c.2
             (read beyond other (c.1 - start_x) (c.2 - start_y))
      else this) this l in
  rectangular result h w ∧
  foldl (λ (this : option (list (list ascii))) c,
    this ← this;
    if (c.1 <? 0) || (c.1 >=? Grid_height this) then Some this else
    if (c.2 <? 0) || (c.2 >=? Grid_width this) then Some this else
    write_cell this c.1 c.2
      (read beyond other (c.1 - start_x) (c.2 - start_y)))
    (Some this) l
  = Some result.
Proof.
  induction l as [|[i j] l IH]; intros this Hrect; cbn [foldl fst snd].
  - done.
  - cbn [mbind option_bind].
    assert ((if (i <? 0) || (i >=? Grid_height this) then Some this else
             if (j <? 0) || (j >=? Grid_width this) then Some this else
             write_cell this i j
               (read beyond other (i - start_x) (j - start_y)))
            = Some (if in_canvas (Z.of_nat h) (Z.of_nat w) (i, j)
                    then set_cell this i j
                           (read beyond other (i - start_x) (j - start_y))
                    else this)) as ->.
    { unfold in_canvas. cbn [fst snd].
      rewrite (rectangular_height _ _ _ Hrect).
      destruct (Z.ltb_spec i 0), (Z.geb_spec i (Z.of_nat h)),
        (Z.leb_spec 0 i), (Z.ltb_spec i (Z.of_nat h)); try lia;
        cbn [orb andb]; try done.
      rewrite (rectangular_width _ _ _ Hrect) by lia.
      destruct (Z.ltb_spec j 0), (Z.geb_spec j (Z.of_nat w)),
        (Z.leb_spec 0 j), (Z.ltb_spec j (Z.of_nat w)); try lia;
        cbn [orb andb]; try done.
      by apply (write_cell_rectangular this h w). }
    apply IH. destruct (in_canvas _ _ _); [|done].
    by apply rectangular_set_cell.
Qed.

(** The two loops of the constructor return on a rectangular canvas, and
    these are the cells of the canvas after them. *)
Lemma embed_cells (this other : list (list ascii)) start_x start_y h w :
  rectangular this h w →
  ∃ result,
    embed beyond this other start_x start_y = Some result ∧
    rectangular result h w ∧
    ∀ i j, 0 ≤ i < Z.of_nat h → 0 ≤ j < Z.of_nat w →
      cell_at result i j =
      if decide (start_x ≤ i < start_x + Grid_height other ∧
                 start_y ≤ j < start_y + Grid_width other)
      then (λ _, read beyond other (i - start_x) (j - start_y))
             <$> cell_at this i j
      else cell_at this i j.
Proof.
  intros Hrect.
  assert (embed beyond this other start_x start_y =
          foldl (λ (this : option (list (list ascii))) c,
            this ← this;
            if (c.1 <? 0) || (c.1 >=? Grid_height this) then Some this else
            if (c.2 <? 0) || (c.2 >=? Grid_width this) then Some this else
            write_cell this c.1 c.2
              (read beyond other (c.1 - start_x) (c.2 - start_y)))
            (Some this) (rectangle_cells (Grid_height other) (Grid_width other)
                           start_x start_y)) as ->.
  { unfold embed.
    apply (for_range_nested (λ (this : option (list (list ascii))) i j,
      this ← this;
      if (i <? 0) || (i >=? Grid_height this) then Some this else
      if (j <? 0) || (j >=? Grid_width this) then Some this else
      write_cell this i j (read beyond other (i - start_x) (j - start_y)))). }
  destruct (embed_guarded other start_x start_y h w
              (rectangle_cells (Grid_height other) (Grid_width other)
                 start_x start_y) this Hrect) as [Hrect' ->].
  eexists. split; [done|]. split; [done|].
  intros i j Hi Hj.
  rewrite (cell_at_guarded_writes (in_canvas (Z.of_nat h) (Z.of_nat w))
    (λ c, read beyond other (c.1 - start_x) (c.2 - start_y))).
  cbn [fst snd].
  assert (in_canvas (Z.of_nat h) (Z.of_nat w) (i, j) = true) as Hcanvas.
  { unfold in_canvas. cbn [fst snd].
    destruct (Z.leb_spec 0 i), (Z.ltb_spec i (Z.of_nat h)),
      (Z.leb_spec 0 j), (Z.ltb_spec j (Z.of_nat w)); try lia; done. }
  destruct (decide ((i, j) ∈ rectangle_cells (Grid_height other)
                      (Grid_width other) start_x start_y ∧
                    in_canvas (Z.of_nat h) (Z.of_nat w) (i, j) = true))
    as [[Hin _]|Hnot];
    destruct (decide (start_x ≤ i < start_x + Grid_height other ∧
                      start_y ≤ j < start_y + Grid_width other))
    as [Hcov|Hncov]; try done.
  - apply elem_of_rectangle_cells in Hin. tauto.
  - exfalso. apply Hnot. split; [by apply elem_of_rectangle_cells|done].
Qed.

End Embed.

Lemma Grid_width_checked_some (g : list (list ascii)) :
  g ≠ [] → Grid_width_checked g = Some (Grid_width g).
Proof. by destruct g. Qed.

Lemma rectangular_nonempty (g : list (list ascii)) h w :
  rectangular g h w → (0 < h)%nat → g ≠ [].
Proof. intros [<- _] Hpos ->. simpl in Hpos. lia. Qed.

Lemma alignment_start_spec ux uy (this other : list (list ascii)) align h w :
  rectangular this h w → (0 < h)%nat → other ≠ [] → align ≠ none →
  alignment_start ux uy this other align =
  Some (spec_offset align (Z.of_nat h) (Z.of_nat w)
                    (Grid_height other) (Grid_width other)).
Proof.
  intros Hrect Hpos Hother Halign. unfold alignment_start, spec_offset.
  rewrite (Grid_width_checked_some this)
    by (by eapply rectangular_nonempty).
  rewrite (Grid_width_checked_some other) by done.
  cbn [mbind option_bind].
  rewrite (rectangular_height _ _ _ Hrect), (rectangular_width _ _ _ Hrect Hpos).
  by destruct align.
Qed.

(** C6. For a canvas of [height >= 1] rows and [length >= 0] columns, a
    rectangular source with a row, dimensions in the range of [int], and
    each of the five alignments, the constructor returns, and it returns a
    canvas of exactly these dimensions. With [(x, y)] the offset of the
    alignment formulas, the place [(i, j)] of the canvas holds the source
    cell [(i - x, j - y)] when the source has such a cell, and the blank
    otherwise. A source cell whose place falls outside the canvas is
    skipped: the two tests of the loop keep every write inside the canvas,
    which is why the constructor returns also when the source is larger
    than the canvas, and the result has no other place. *)
Theorem Grid_ctor_embed_alignment beyond ux uy height length_
    (other : list (list ascii)) align :
  1 ≤ height < 2 ^ 31 → 0 ≤ length_ < 2 ^ 31 →
  1 ≤ Grid_height other < 2 ^ 31 → Grid_width other < 2 ^ 31 →
  Forall (λ row, Z.of_nat (length row) = Grid_width other) other →
  align ≠ none →
  ∃ this,
    Grid_ctor_embed beyond ux uy height length_ other align = Some this ∧
    rectangular this (Z.to_nat height) (Z.to_nat length_) ∧
    ∀ i j, 0 ≤ i < height → 0 ≤ j < length_ →
      let x := (spec_offset align height length_
                  (Grid_height other) (Grid_width other)).1 in
      let y := (spec_offset align height length_
                  (Grid_height other) (Grid_width other)).2 in
      if decide (x ≤ i < x + Grid_height other ∧ y ≤ j < y + Grid_width other)
      then is_Some (cell_at other (i - x) (j - y)) ∧
           cell_at this i j = cell_at other (i - x) (j - y)
      else cell_at this i j = Some blank.
Proof.
  intros Hh Hl Hoh How Hother Halign.
  assert (other ≠ []) as Hne
    by (intros ->; unfold Grid_height in Hoh; simpl in Hoh; lia).
  assert (rectangular other (length other) (Z.to_nat (Grid_width other)))
    as Hrect_other.
  { split; [done|]. eapply Forall_impl; [exact Hother|].
    intros row Hrow. simpl in Hrow. lia. }
  unfold Grid_ctor_embed. rewrite Grid_ctor_blank by lia.
  cbn [mbind option_bind].
  pose proof (rectangular_replicate (Z.to_nat height) (Z.to_nat length_) blank)
    as Hrect.
  rewrite (alignment_start_spec ux uy _ other align _ _ Hrect)
    by (done || lia).
  cbn [mbind option_bind]. rewrite !Z2Nat.id by lia.
  destruct (spec_offset align height length_ (Grid_height other)
              (Grid_width other)) as [sx sy]. cbn [fst snd].
  destruct (embed_cells beyond _ other sx sy _ _ Hrect)
    as (this & -> & Hrect' & Hcells).
  exists this. split; [done|]. split; [done|].
  intros i j Hi Hj. cbv zeta.
  rewrite Hcells by lia.
  rewrite cell_at_replicate by lia. cbn [fmap option_fmap option_map].
  case_decide as Hcov; [|done].
  assert (is_Some (cell_at other (i - sx) (j - sy))) as [c Hc].
  { apply (cell_at_rectangular _ _ _ _ _ Hrect_other).
    unfold Grid_height in Hcov.
    assert (0 ≤ Grid_width other)
      by (unfold Grid_width; destruct other; lia).
    lia. }
  split; [by eexists|]. by rewrite Hc, (read_cell_at beyond _ _ _ _ Hc).
Qed.

Lemma Grid_ctor_embed_alignment_witness :
  ∃ this,
    Grid_ctor_embed zero_beyond 0 0 2 2 blinker bottom_right = Some this ∧
    rectangular this (Z.to_nat 2) (Z.to_nat 2) ∧
    ∀ i j, 0 ≤ i < 2 → 0 ≤ j < 2 →
      let x := (spec_offset bottom_right 2 2
                  (Grid_height blinker) (Grid_width blinker)).1 in
      let y := (spec_offset bottom_right 2 2
                  (Grid_height blinker) (Grid_width blinker)).2 in
      if decide (x ≤ i < x + Grid_height blinker ∧
                 y ≤ j < y + Grid_width blinker)
      then is_Some (cell_at blinker (i - x) (j - y)) ∧
           cell_at this i j = cell_at blinker (i - x) (j - y)
      else cell_at this i j = Some blank.
Proof.
  apply (Grid_ctor_embed_alignment zero_beyond 0 0 2 2 blinker bottom_right).
  - lia.
  - lia.
  - vm_compute. by split.
  - vm_compute. done.
  - repeat constructor.
  - discriminate.
Defined.

(** C7. With the alignment [none] the constructor returns the blank canvas:
    the code does not. The [switch] leaves [start_x] and [start_y] without a
    value and the two loops run all the same. When the locals hold 0 and 0
    the source is copied to the top left corner; when they hold 7 and 7 every
    source cell falls outside the canvas of 2 by 2, and only then is the
    result blank. *)
Theorem Grid_ctor_embed_none_runs_loops :
  (∀ beyond, Grid_ctor_embed beyond 0 0 2 2 [[star]] none
             = Some [[star; blank]; [blank; blank]]) ∧
  (∀ beyond, Grid_ctor_embed beyond 7 7 2 2 [[star]] none
             = Some [[blank; blank]; [blank; blank]]).
Proof. split; reflexivity. Qed.

(** ** The seed loader *)

Lemma int_of_size_t_small n : 0 ≤ n < 2 ^ 31 → int_of_size_t n = n.
Proof.
  intros Hn. unfold int_of_size_t. rewrite Z.mod_small by lia.
  destruct (Z.ltb_spec n (2 ^ 31)); [done|lia].
Qed.

Lemma length_list_ascii_of_string (line : string) :
  length (list_ascii_of_string line) = String.length line.
Proof. induction line as [|c line IH]; [done|]. simpl. by rewrite IH. Qed.


(** C8. The loader returns a rectangular grid, every row padded to the
    longest: the code does not. Whatever is found behind [grid.end()], for
    the lines "a" and "bc" it returns the rows as read, of lengths 1 and 2;
    for the lines "bc" and "a" it either throws or returns the rows as
    read, of lengths 2 and 1. *)
Theorem load_grid_returns_ragged past_end_size :
  0 ≤ past_end_size < 2 ^ 64 →
  load_grid past_end_size ["a"; "bc"]%string
    = Some [["a"]; ["b"; "c"]]%char ∧
  (load_grid past_end_size ["bc"; "a"]%string = None ∨
   load_grid past_end_size ["bc"; "a"]%string
     = Some [["b"; "c"]; ["a"]]%char).
Proof.
  intros He. split.
  - unfold load_grid. cbn [fmap list_fmap list_ascii_of_string length].
    destruct (Z.gtb_spec (Z.of_nat 1) past_end_size) as [Hlt|Hge].
    + assert (past_end_size = 0) as -> by lia. reflexivity.
    + reflexivity.
  - unfold load_grid. cbn [fmap list_fmap list_ascii_of_string length].
    destruct (Z.gtb_spec (Z.of_nat 2) past_end_size) as [Hlt|Hge].
    + assert (past_end_size = 0 ∨ past_end_size = 1) as [-> | ->] by lia;
        right; reflexivity.
    + left. reflexivity.
Qed.

Lemma load_grid_returns_ragged_witness :
  load_grid 0 ["a"; "bc"]%string = Some [["a"]; ["b"; "c"]]%char ∧
  (load_grid 0 ["bc"; "a"]%string = None ∨
   load_grid 0 ["bc"; "a"]%string = Some [["b"; "c"]; ["a"]]%char).
Proof. apply (load_grid_returns_ragged 0). lia. Defined.

(** ** The alphabet of the two grids *)

(** The loop of [replace_particle] over the rows changes every row. *)
Lemma alter_every_row {A : Type} (f : A → A) (l : list A) :
  for_range 0 (Z.of_nat (length l)) (λ i l, alter f (Z.to_nat i) l) l = f <$> l.
Proof.
  unfold for_range. rewrite Z.sub_0_r.
  enough (∀ n : nat, (n ≤ length l)%nat →
            foldl (λ l i, alter f (Z.to_nat i) l) l (seqZ 0 (Z.of_nat n))
            = (f <$> take n l) ++ drop n l) as Hloop.
  { rewrite Hloop by done. by rewrite firstn_all, drop_all, app_nil_r. }
  induction n as [|n IH]; intros Hn.
  - by rewrite drop_0.
  - rewrite seqZ_S, foldl_app, IH by lia. cbn [foldl].
    rewrite Z.add_0_l, Nat2Z.id.
    destruct (lookup_lt_is_Some_2 l n ltac:(lia)) as [a Ha].
    rewrite (take_S_r _ _ _ Ha), (drop_S _ _ _ Ha), fmap_app.
    rewrite alter_app_r_alt by (rewrite length_fmap, length_take; lia).
    rewrite length_fmap, length_take.
    replace (n - n `min` length l)%nat with 0%nat by lia.
    by rewrite <- app_assoc.
Qed.

Lemma replace_particle_normalises s p :
  replace_particle s p =
  mkGameOfLife ((λ row : list ascii, normalise p <$> row) <$> grid s) (next_grid s) p (stale s).
Proof.
  unfold replace_particle. cbn [grid next_grid particle stale]. f_equal.
  unfold Grid_height. rewrite alter_every_row.
  apply list_fmap_ext. intros _ row _. apply list_fmap_ext. intros _ c _.
  unfold normalise. by destruct (Ascii.eqb_spec c blank) as [->|].
Qed.

Lemma two_symbol_normalise p (g : list (list ascii)) :
  two_symbol p ((λ row : list ascii, normalise p <$> row) <$> g).
Proof.
  unfold two_symbol. apply Forall_fmap, Forall_true. intros row.
  apply Forall_fmap, Forall_true. intros c. unfold normalise. simpl.
  destruct (Ascii.eqb c blank); auto.
Qed.

Lemma two_symbol_set_cell p (g : list (list ascii)) i j c :
  two_symbol p g → c = p ∨ c = blank → two_symbol p (set_cell g i j c).
Proof.
  intros Hg Hc. unfold set_cell. destruct (_ && _); [|done].
  apply Forall_alter; [done|]. intros row _ Hrow. by apply Forall_insert.
Qed.

Lemma rule_two_symbol p c count : rule p c count = p ∨ rule p c count = blank.
Proof. unfold rule. repeat destruct (_ && _); auto. Qed.

Lemma two_symbol_blank p h w :
  two_symbol p (replicate h (replicate w blank)).
Proof. apply Forall_replicate, Forall_replicate. by right. Qed.

(** When the constructor [Grid(int, int)] returns, every cell of its grid is
    the blank. *)
Lemma Grid_ctor_all_blank height length_ g :
  Grid_ctor height length_ = Some g → Forall (Forall (λ c, c = blank)) g.
Proof.
  unfold Grid_ctor, vector_fill.
  destruct (size_t_of_int height >? max_size_row); [done|].
  cbn [mbind option_bind]. rewrite mapM_replicate_const.
  destruct (Z.to_nat (size_t_of_int height)); [by intros [= <-]|].
  destruct (size_t_of_int length_ >? max_size_char); [done|].
  intros [= <-]. by apply (Forall_replicate _ (S n)), Forall_replicate.
Qed.

Lemma all_blank_two_symbol p (g : list (list ascii)) :
  Forall (Forall (λ c, c = blank)) g → two_symbol p g.
Proof.
  intros Hg. eapply Forall_impl; [exact Hg|]. intros row Hrow.
  eapply Forall_impl; [exact Hrow|]. intros c ->. by right.
Qed.

Section Alphabet.

Variable beyond : Z → Z → ascii.

Lemma run_schedule_alphabet s schedule :
  alphabet s → alphabet (run_schedule beyond s schedule).
Proof.
  intros [Hg Hn]. rewrite run_schedule_writes. split; [done|].
  cbn [particle next_grid]. revert Hn. generalize (next_grid s) as g.
  induction schedule as [|c l IH]; intros g Hn; [done|].
  cbn [foldl]. apply IH, two_symbol_set_cell; [done|]. apply rule_two_symbol.
Qed.

Lemma update_alphabet s : alphabet s → alphabet (update beyond s).
Proof.
  intros Hs. unfold update, check_multithread. cbv zeta.
  rewrite run_threads_schedule.
  destruct (run_schedule_alphabet s
              (spawn_threads (grid s) NUM_THREADS ≫= band_cells) Hs)
    as [Hg Hn].
  by destruct (grid_eqb _ _).
Qed.

Lemma run_schedule_well_formed s schedule h w :
  well_formed s h w → well_formed (run_schedule beyond s schedule) h w.
Proof.
  intros [Hg Hn]. rewrite run_schedule_writes. split; [done|].
  cbn [next_grid]. revert Hn. generalize (next_grid s) as g.
  induction schedule as [|c l IH]; intros g Hn; [done|].
  cbn [foldl]. by apply IH, rectangular_set_cell.
Qed.

Lemma update_well_formed s h w :
  well_formed s h w → well_formed (update beyond s) h w.
Proof.
  intros Hs. unfold update, check_multithread. cbv zeta.
  rewrite run_threads_schedule.
  destruct (run_schedule_well_formed s
              (spawn_threads (grid s) NUM_THREADS ≫= band_cells) h w Hs)
    as [Hg Hn].
  by destruct (grid_eqb _ _).
Qed.

(** C10. Every cell of the two grids of the engine is the particle or the
    blank. Construction from a seed grid that has a row (and dimensions in
    the range of [int]) returns an engine whose current grid is the seed
    with every non-blank cell replaced by the particle and whose next grid
    is blank; whenever one of the three constructors returns, both grids are
    over this alphabet. On an engine whose two grids have [h >= 1] rows of
    [w] cells, a pass of [check_bounded] over a band inside the grid, a step
    [update], and any number of steps keep both grids over it. *)
Theorem engine_alphabet :
  (∀ start p,
     start ≠ [] → Grid_height start < 2 ^ 31 → Grid_width start < 2 ^ 31 →
     ∃ s, GameOfLife_of_grid start p = Some s ∧
          particle s = p ∧
          grid s = ((λ row : list ascii, normalise p <$> row) <$> start) ∧
          Forall (Forall (λ c, c = blank)) (next_grid s) ∧
          alphabet s) ∧
  (∀ start p s, GameOfLife_of_grid start p = Some s → alphabet s) ∧
  (∀ x y p s, GameOfLife_blank x y p = Some s → alphabet s) ∧
  (∀ ux uy past_end_size params s,
     GameOfLife_of_params beyond ux uy past_end_size params = Some s →
     alphabet s) ∧
  (∀ s h w height width start_x start_y,
     well_formed s h w → (0 < h)%nat →
     0 ≤ start_x → start_x + height ≤ Z.of_nat h →
     0 ≤ start_y → start_y + width ≤ Z.of_nat w →
     alphabet s →
     alphabet (check_bounded beyond s height width start_x start_y)) ∧
  (∀ s h w,
     well_formed s h w → (0 < h)%nat →
     alphabet s → alphabet (update beyond s)) ∧
  (∀ s h w n,
     well_formed s h w → (0 < h)%nat →
     alphabet s → alphabet (Nat.iter n (update beyond) s)).
Proof.
  assert (∀ start p s, GameOfLife_of_grid start p = Some s → alphabet s)
    as Hof_grid.
  { intros start p s. unfold GameOfLife_of_grid.
    destruct (Grid_width_checked start) as [width|]; [|done].
    cbn [mbind option_bind].
    destruct (Grid_ctor _ _) as [next|] eqn:Hnext; [|done].
    cbn [mbind option_bind]. rewrite replace_particle_normalises.
    intros [= <-]. split; cbn [grid next_grid particle].
    - apply two_symbol_normalise.
    - by eapply all_blank_two_symbol, Grid_ctor_all_blank. }
  split; [|split; [|split; [|split; [|split; [|split]]]]].
  - intros start p Hne Hh Hw. unfold GameOfLife_of_grid.
    assert (0 ≤ Grid_height start) by (unfold Grid_height; lia).
    assert (0 ≤ Grid_width start)
      by (unfold Grid_width; destruct start; lia).
    rewrite Grid_width_checked_some by done. cbn [mbind option_bind].
    rewrite Grid_ctor_blank by lia. cbn [mbind option_bind].
    rewrite replace_particle_normalises. eexists. split; [done|].
    cbn [grid next_grid particle]. split; [done|]. split; [done|]. split.
    + apply Forall_replicate, Forall_replicate. done.
    + split; cbn [grid next_grid particle].
      * apply two_symbol_normalise.
      * apply two_symbol_blank.
  - exact Hof_grid.
  - intros x y p s. unfold GameOfLife_blank.
    destruct (Grid_ctor x y) as [g|] eqn:Hg; [|done].
    cbn [mbind option_bind]. rewrite replace_particle_normalises.
    intros [= <-]. split; cbn [grid next_grid particle].
    + apply two_symbol_normalise.
    + by eapply all_blank_two_symbol, Grid_ctor_all_blank.
  - intros ux uy past_end_size params s. unfold GameOfLife_of_params.
    destruct (load_grid_aligned _ _ _ _ _ _ _ _) as [g|]; [|done].
    apply Hof_grid.
  - intros s h w height width start_x start_y _ _ _ _ _ _ Hs.
    rewrite check_bounded_schedule. by apply run_schedule_alphabet.
  - intros s h w _ _. apply update_alphabet.
  - intros s h w n _ _ Hs. induction n as [|n IH]; [done|].
    cbn [Nat.iter]. by apply update_alphabet.
Qed.

End Alphabet.

Lemma engine_alphabet_witness :
  (∃ s, GameOfLife_of_grid [["a"; " "]; ["b"; "c"]]%char star = Some s ∧
        particle s = star ∧
        grid s = [[star; blank]; [star; star]] ∧
        Forall (Forall (λ c, c = blank)) (next_grid s) ∧
        alphabet s) ∧
  alphabet (check_bounded zero_beyond blinker_engine 2 3 1 0) ∧
  alphabet (Nat.iter 3 (update zero_beyond) blinker_engine).
Proof.
  destruct (engine_alphabet zero_beyond)
    as (Hctor & _ & _ & _ & Hband & _ & Hiter).
  assert (well_formed blinker_engine 3 3) as Hshape
    by (split; (split; [done|]); repeat constructor).
  assert (alphabet blinker_engine) as Halphabet.
  { split; repeat (apply Forall_cons_2 || apply Forall_nil_2);
      (by left) || (by right). }
  split; [|split].
  - apply (Hctor [["a"; " "]; ["b"; "c"]]%char star); vm_compute; done.
  - apply (Hband blinker_engine 3%nat 3%nat 2 3 1 0); (done || lia).
  - apply (Hiter blinker_engine 3%nat 3%nat 3%nat); (done || lia).
Defined.

(** * Further properties of the code *)

(** ** Equality of grids *)

Lemma cell_at_of_nat (g : list (list ascii)) (i j : nat) :
  cell_at g (Z.of_nat i) (Z.of_nat j) = g !! i ≫= λ row, row !! j.
Proof.
  unfold cell_at.
  destruct (Z.leb_spec 0 (Z.of_nat i)), (Z.leb_spec 0 (Z.of_nat j)); try lia.
  cbn [andb]. by rewrite !Nat2Z.id.
Qed.

(** Two grids with the same number of rows and the same cell, or none, at
    every place are the same grid. *)
Lemma grid_ext (g1 g2 : list (list ascii)) :
  length g1 = length g2 →
  (∀ i j, cell_at g1 i j = cell_at g2 i j) → g1 = g2.
Proof.
  intros Hlen Hcells. apply list_eq. intros i.
  destruct (g1 !! i) as [r1|] eqn:H1, (g2 !! i) as [r2|] eqn:H2.
  - f_equal. apply list_eq. intros j.
    specialize (Hcells (Z.of_nat i) (Z.of_nat j)).
    by rewrite !cell_at_of_nat, H1, H2 in Hcells.
  - apply lookup_lt_Some in H1. apply lookup_ge_None in H2. lia.
  - apply lookup_ge_None in H1. apply lookup_lt_Some in H2. lia.
  - done.
Qed.

(** [operator==] of [Grid] answers true exactly for two grids of the same
    height that hold the same cell, or none, at every place. *)
Theorem grid_eqb_cells (g1 g2 : list (list ascii)) :
  grid_eqb g1 g2 = true ↔
  Grid_height g1 = Grid_height g2 ∧ ∀ i j, cell_at g1 i j = cell_at g2 i j.
Proof.
  rewrite grid_eqb_eq. split.
  - by intros ->.
  - intros [Hh Hcells]. apply grid_ext; [|done].
    unfold Grid_height in Hh. lia.
Qed.

(** ** The neighbour count *)

Lemma seqZ_3 m : seqZ m 3 = [m; m + 1; m + 2].
Proof.
  unfold seqZ. simpl.
  replace (Z.of_nat 0 + m) with m by lia.
  replace (Z.of_nat 1 + m) with (m + 1) by lia.
  by replace (Z.of_nat 2 + m) with (m + 2) by lia.
Qed.

Lemma rectangle_cells_3x3 a b :
  rectangle_cells 3 3 a b =
  [(a, b); (a, b + 1); (a, b + 2); (a + 1, b)] ++
  (a + 1, b + 1) ::
  [(a + 1, b + 2); (a + 2, b); (a + 2, b + 1); (a + 2, b + 2)].
Proof. unfold rectangle_cells. by rewrite !seqZ_3. Qed.

Section Count.

Variable beyond : Z → Z → ascii.

(** Whatever the grid and whatever lies past its rows, the count returned by
    [check_neighbors] is between 0 and 8. *)
Theorem check_neighbors_range g p x y :
  0 ≤ check_neighbors beyond g p x y ≤ 8.
Proof.
  rewrite check_neighbors_count, check_neighbors_reads_filter.
  split; [lia|].
  pose proof (length_filter
    (λ c, Ascii.eqb (read beyond g c.1 c.2) p = true)
    (filter (λ c, neighbor_read (Grid_height g) (Grid_width g) x y c = true)
            (rectangle_cells 3 3 (x - 1) (y - 1)))) as Hcount.
  enough (length (filter
            (λ c, neighbor_read (Grid_height g) (Grid_width g) x y c = true)
            (rectangle_cells 3 3 (x - 1) (y - 1))) ≤ 8)%nat by lia.
  rewrite rectangle_cells_3x3, filter_app, length_app.
  set (before := [(x - 1, y - 1); (x - 1, y - 1 + 1); (x - 1, y - 1 + 2);
                  (x - 1 + 1, y - 1)]).
  set (after := [(x - 1 + 1, y - 1 + 2); (x - 1 + 2, y - 1);
                 (x - 1 + 2, y - 1 + 1); (x - 1 + 2, y - 1 + 2)]).
  rewrite (filter_cons_False _ (x - 1 + 1, y - 1 + 1) after).
  - pose proof (length_filter
      (λ c, neighbor_read (Grid_height g) (Grid_width g) x y c = true)
      before) as Hbefore.
    pose proof (length_filter
      (λ c, neighbor_read (Grid_height g) (Grid_width g) x y c = true)
      after) as Hafter.
    assert (length before = 4%nat) as Hb by done.
    assert (length after = 4%nat) as Ha by done.
    lia.
  - unfold neighbor_read. cbn [fst snd].
    replace (x - 1 + 1) with x by lia. replace (y - 1 + 1) with y by lia.
    rewrite !Z.eqb_refl. cbn [negb orb]. by rewrite andb_false_r.
Qed.

(** The count of [check_neighbors] and the alive cells around a place as
    lists of places: on a rectangular grid with no more rows than columns
    and no particle byte past the rows, the places that the code counts are
    the alive neighbours inside the grid. *)
Lemma check_neighbors_alive (g : list (list ascii)) h w p x y :
  rectangular g h w → (h ≤ w)%nat → (∀ i j, beyond i j ≠ p) →
  check_neighbors beyond g p x y = alive_neighbors g p x y.
Proof.
  intros Hrect Hhw Hbeyond.
  rewrite check_neighbors_count, check_neighbors_reads_filter.
  unfold alive_neighbors. do 2 f_equal.
  rewrite list_filter_filter. apply list_filter_iff. intros [i j].
  cbn [fst snd]. unfold neighbor_read. cbn [fst snd].
  rewrite Ascii.eqb_eq.
  pose proof (cell_at_rectangular g h w i j Hrect) as Hcell.
  split.
  - intros [Hp Hread]. unfold read in Hp.
    destruct (cell_at g i j) as [c|]; [|by destruct (Hbeyond i j)].
    subst c. split; [|done]. intros [= -> ->].
    rewrite !Z.eqb_refl in Hread. cbn [negb orb] in Hread.
    by rewrite andb_false_r in Hread.
  - intros [Hne Hp]. rewrite (read_cell_at beyond _ _ _ _ Hp).
    split; [done|].
    destruct Hcell as [Hin _]. specialize (Hin ltac:(by eexists)).
    destruct g as [|row g]; [destruct Hrect as [<- _]; simpl in *; lia|].
    rewrite (rectangular_height _ _ _ Hrect).
    rewrite (rectangular_width _ _ _ Hrect)
      by (destruct Hrect as [<- _]; simpl; lia).
    destruct (Z.ltb_spec i 0), (Z.geb_spec i (Z.of_nat h)),
      (Z.ltb_spec j 0), (Z.geb_spec i (Z.of_nat w)); try lia.
    cbn [negb orb andb].
    destruct (Z.eqb_spec i x), (Z.eqb_spec j y); try done.
    by subst.
Qed.

(** On a rectangular grid with no more rows than columns, when no byte past
    the rows is the particle, the count returned by [check_neighbors] is the
    number of alive cells of the grid around the place. *)
Theorem check_neighbors_exact (g : list (list ascii)) h w p x y :
  rectangular g h w → (h ≤ w)%nat → (∀ i j, beyond i j ≠ p) →
  check_neighbors beyond g p x y = alive_neighbors g p x y.
Proof. apply check_neighbors_alive. Qed.

End Count.

Lemma check_neighbors_exact_witness :
  check_neighbors zero_beyond blinker star 1 2
  = alive_neighbors blinker star 1 2.
Proof.
  apply (check_neighbors_exact zero_beyond blinker 3 3 star 1 2).
  - split; [done|]. repeat constructor.
  - lia.
  - intros i j. discriminate.
Defined.

(** ** The rule with the number of alive neighbours *)

Section Exact_pass.

Variable beyond : Z → Z → ascii.

(** On an engine whose grids have [h >= 1] rows of [w >= h] cells, when no
    byte past the rows is the particle, a pass of [check_bounded] over a
    band inside the grid writes, at every place of the band, the value of
    the rule for the cell of the current grid and the number of its alive
    neighbours inside the grid. The current grid, the particle and the flag
    are unchanged, and so are the cells of the next grid outside the
    band. *)
Theorem check_bounded_rule_exact s h w height width start_x start_y :
  well_formed s h w → (0 < h)%nat → (h ≤ w)%nat →
  (∀ i j, beyond i j ≠ particle s) →
  0 ≤ start_x → start_x + height ≤ Z.of_nat h →
  0 ≤ start_y → start_y + width ≤ Z.of_nat w →
  let s' := check_bounded beyond s height width start_x start_y in
  grid s' = grid s ∧ particle s' = particle s ∧ stale s' = stale s ∧
  (∀ i j, start_x ≤ i < start_x + height → start_y ≤ j < start_y + width →
     ∃ c, cell_at (grid s) i j = Some c ∧
          cell_at (next_grid s') i j =
            Some (rule (particle s) c
                    (alive_neighbors (grid s) (particle s) i j))) ∧
  (∀ i j, ¬ (start_x ≤ i < start_x + height ∧ start_y ≤ j < start_y + width) →
     cell_at (next_grid s') i j = cell_at (next_grid s) i j).
Proof.
  intros [Hgrid Hnext] _ Hhw Hbeyond Hx0 Hx1 Hy0 Hy1.
  destruct (check_bounded_applies_rule beyond s height width start_x start_y)
    as (Hg & Hp & Hstale & Hband & Hrest).
  { intros i j Hi Hj.
    split; eapply cell_at_rectangular; try eassumption; lia. }
  cbv zeta. split; [done|]. split; [done|]. split; [done|].
  split; [|done].
  intros i j Hi Hj. destruct (Hband i j Hi Hj) as (c & Hc & Hwritten).
  exists c. split; [done|].
  by rewrite Hwritten, (check_neighbors_alive beyond _ h w).
Qed.

End Exact_pass.

Lemma check_bounded_rule_exact_witness :
  let s' := check_bounded zero_beyond blinker_engine 2 3 1 0 in
  grid s' = blinker ∧ particle s' = star ∧ stale s' = false ∧
  (∀ i j, 1 ≤ i < 1 + 2 → 0 ≤ j < 0 + 3 →
     ∃ c, cell_at blinker i j = Some c ∧
          cell_at (next_grid s') i j =
            Some (rule star c (alive_neighbors blinker star i j))) ∧
  (∀ i j, ¬ (1 ≤ i < 1 + 2 ∧ 0 ≤ j < 0 + 3) →
     cell_at (next_grid s') i j = cell_at blank_3x3 i j).
Proof.
  apply (check_bounded_rule_exact zero_beyond blinker_engine 3 3 2 3 1 0).
  - split; (split; [done|]); repeat constructor.
  - lia.
  - lia.
  - intros i j. discriminate.
  - lia.
  - lia.
  - lia.
  - lia.
Defined.

(** ** The visits of the threads *)

Lemma NoDup_rectangle_cells h w x y : NoDup (rectangle_cells h w x y).
Proof.
  unfold rectangle_cells. apply NoDup_bind.
  - intros i1 i2 c _ _ [j1 [-> _]]%list_elem_of_fmap
      [j2 [[= -> _] _]]%list_elem_of_fmap. done.
  - intros i _. apply NoDup_fmap_2; [|apply NoDup_seqZ].
    by intros j1 j2 [= ->].
  - apply NoDup_seqZ.
Qed.

(** For every number of threads [N >= 1], the threads created by
    [check_multithread] visit every place of the grid exactly once, all
    threads together, and no place outside of it: no cell of the next grid
    is written twice, and no write leaves the grid. *)
Theorem spawn_threads_visits_once (g : list (list ascii)) N :
  1 ≤ N →
  NoDup (spawn_threads g N ≫= band_cells) ∧
  ∀ i j, (i, j) ∈ spawn_threads g N ≫= band_cells ↔
         0 ≤ i < Grid_height g ∧ 0 ≤ j < Grid_width g.
Proof.
  intros HN. rewrite spawn_threads_cells by done. split.
  - apply NoDup_rectangle_cells.
  - intros i j. rewrite elem_of_rectangle_cells. lia.
Qed.

Lemma spawn_threads_visits_once_witness :
  NoDup (spawn_threads blinker 2 ≫= band_cells) ∧
  ∀ i j, (i, j) ∈ spawn_threads blinker 2 ≫= band_cells ↔
         0 ≤ i < Grid_height blinker ∧ 0 ≤ j < Grid_width blinker.
Proof. apply (spawn_threads_visits_once blinker 2). lia. Defined.

(** ** The shape of the two grids *)

Lemma rectangular_fmap (f : ascii → ascii) (g : list (list ascii)) h w :
  rectangular g h w → rectangular ((λ row : list ascii, f <$> row) <$> g) h w.
Proof.
  intros [Hh Hw]. split; [by rewrite length_fmap|].
  apply Forall_fmap. eapply Forall_impl; [exact Hw|].
  intros row Hrow. simpl. by rewrite length_fmap.
Qed.

Section Shape.

Variable beyond : Z → Z → ascii.

(** The engine built from a rectangular seed that has a row has two grids of
    the dimensions of the seed. On an engine whose grids have [h >= 1] rows
    of [w] cells, a pass over a band inside the grid, a banded pass with
    [N >= 1] threads and a step keep these dimensions, and the step keeps
    the particle. *)
Theorem well_formed_kept :
  (∀ start p h w,
     rectangular start h w → (0 < h)%nat →
     Z.of_nat h < 2 ^ 31 → Z.of_nat w < 2 ^ 31 →
     ∃ s, GameOfLife_of_grid start p = Some s ∧ well_formed s h w) ∧
  (∀ s h w height width start_x start_y,
     well_formed s h w → (0 < h)%nat →
     0 ≤ start_x → start_x + height ≤ Z.of_nat h →
     0 ≤ start_y → start_y + width ≤ Z.of_nat w →
     well_formed (check_bounded beyond s height width start_x start_y) h w) ∧
  (∀ s h w N,
     well_formed s h w → (0 < h)%nat → 1 ≤ N →
     well_formed (check_multithread beyond s N) h w) ∧
  (∀ s h w,
     well_formed s h w → (0 < h)%nat →
     well_formed (update beyond s) h w ∧
     particle (update beyond s) = particle s).
Proof.
  split; [|split; [|split]].
  - intros start p h w Hrect Hpos Hh Hw. unfold GameOfLife_of_grid.
    rewrite Grid_width_checked_some by (by eapply rectangular_nonempty).
    cbn [mbind option_bind].
    rewrite (rectangular_height _ _ _ Hrect),
      (rectangular_width _ _ _ Hrect) by done.
    rewrite Grid_ctor_blank by lia. cbn [mbind option_bind].
    rewrite replace_particle_normalises. eexists. split; [done|].
    split; cbn [grid next_grid].
    + by apply rectangular_fmap.
    + rewrite <- (Nat2Z.id h) at 2. rewrite <- (Nat2Z.id w) at 2.
      apply rectangular_replicate.
  - intros s h w height width start_x start_y Hs _ _ _ _ _.
    rewrite check_bounded_schedule. by apply run_schedule_well_formed.
  - intros s h w N Hs _ _. unfold check_multithread.
    rewrite run_threads_schedule. by apply run_schedule_well_formed.
  - intros s h w Hs _. split; [by apply update_well_formed|].
    unfold update. cbv zeta.
    destruct (check_multithread_frame beyond s NUM_THREADS) as (_ & Hp & _).
    by destruct (grid_eqb _ _).
Qed.

End Shape.

Lemma well_formed_kept_witness :
  (∃ s, GameOfLife_of_grid blinker star = Some s ∧ well_formed s 3 3) ∧
  well_formed (check_bounded zero_beyond blinker_engine 2 3 1 0) 3 3 ∧
  well_formed (check_multithread zero_beyond blinker_engine 2) 3 3 ∧
  well_formed (update zero_beyond blinker_engine) 3 3 ∧
  particle (update zero_beyond blinker_engine) = star.
Proof.
  destruct (well_formed_kept zero_beyond) as (Hctor & Hband & Hpass & Hupdate).
  assert (well_formed blinker_engine 3 3) as Hshape
    by (split; (split; [done|]); repeat constructor).
  split; [|split; [|split]].
  - apply (Hctor blinker star 3%nat 3%nat).
    + split; [done|]. repeat constructor.
    + lia.
    + done.
    + done.
  - apply (Hband blinker_engine 3%nat 3%nat 2 3 1 0); (done || lia).
  - apply (Hpass blinker_engine 3%nat 3%nat 2); (done || lia).
  - apply (Hupdate blinker_engine 3%nat 3%nat); (done || lia).
Defined.

(** ** Generations *)

Lemma foldl_commute {S A : Type} (f : S → A → S) :
  (∀ s a b, f (f s a) b = f (f s b) a) →
  ∀ l s a, f (foldl f s l) a = foldl f (f s a) l.
Proof.
  intros Hf l. induction l as [|b l IH]; intros s a; [done|].
  cbn [foldl]. by rewrite IH, Hf.
Qed.

(** Doing twice a list of writes that can be exchanged and repeated is doing
    it once. *)
Lemma foldl_twice {S A : Type} (f : S → A → S) :
  (∀ s a b, f (f s a) b = f (f s b) a) →
  (∀ s a, f (f s a) a = f s a) →
  ∀ l s, foldl f (foldl f s l) l = foldl f s l.
Proof.
  intros Hex Hidem l. induction l as [|a l IH]; intros s; [done|].
  cbn [foldl]. by rewrite (foldl_commute f Hex), Hidem, IH.
Qed.

Lemma set_cell_twice (g : list (list ascii)) i j c :
  set_cell (set_cell g i j c) i j c = set_cell g i j c.
Proof.
  unfold set_cell. destruct (_ && _); [|done].
  rewrite list_alter_alter_eq. apply list_alter_ext; [|done].
  intros row _. simpl. apply list_insert_insert_eq.
Qed.

Lemma all_blank_cell (g : list (list ascii)) i j c :
  Forall (Forall (λ c, c = blank)) g → cell_at g i j = Some c → c = blank.
Proof.
  intros Hg. unfold cell_at. destruct (_ && _); [|done].
  destruct (g !! Z.to_nat i) as [row|] eqn:Hrow; [|done]. simpl.
  intros Hc. rewrite Forall_lookup in Hg.
  specialize (Hg _ _ Hrow). rewrite Forall_lookup in Hg. by eapply Hg.
Qed.

Lemma filter_none {A : Type} (P : A → Prop) `{∀ x, Decision (P x)}
    (l : list A) :
  (∀ x, ¬ P x) → filter P l = [].
Proof.
  intros HP. induction l as [|a l IH]; [done|].
  by rewrite filter_cons_False.
Qed.

Section Generations.

Variable beyond : Z → Z → ascii.

(** The cells of the next grid after a banded pass on an engine whose grids
    have [h] rows of [w] cells. *)
Lemma computed_cell s h w N i j :
  well_formed s h w → 1 ≤ N →
  cell_at (next_grid (check_multithread beyond s N)) i j =
  if decide (0 ≤ i < Z.of_nat h ∧ 0 ≤ j < Z.of_nat w)
  then Some (written beyond (grid s) (particle s) (i, j))
  else None.
Proof.
  intros [Hg Hn] HN. unfold check_multithread.
  rewrite run_threads_schedule, spawn_threads_cells, run_schedule_writes
    by done.
  cbn [next_grid]. rewrite cell_at_writes.
  pose proof (cell_at_rectangular _ _ _ i j Hn) as Hcell.
  destruct (decide (0 ≤ i < Z.of_nat h ∧ 0 ≤ j < Z.of_nat w)) as [Hin|Hout].
  - destruct (proj2 Hcell Hin) as [c Hc]. rewrite Hc.
    rewrite decide_True; [done|].
    apply elem_of_rectangle_cells.
    rewrite (rectangular_height _ _ _ Hg), (rectangular_width _ _ _ Hg) by lia.
    lia.
  - destruct (cell_at (next_grid s) i j) as [c|] eqn:Hc.
    + destruct Hout. apply Hcell. by eexists.
    + by case_decide.
Qed.

Lemma computed_length s N :
  length (next_grid (check_multithread beyond s N)) = length (next_grid s).
Proof.
  unfold check_multithread. rewrite run_threads_schedule, run_schedule_writes.
  cbn [next_grid]. generalize (spawn_threads (grid s) N ≫= band_cells) as l.
  generalize (next_grid s) as g. intros g l. revert g.
  induction l as [|c l IH]; intros g; [done|].
  cbn [foldl]. by rewrite IH, length_set_cell.
Qed.

(** A banded pass overwrites the whole next grid: what the next grid held
    before the pass has no part in the result. *)
Theorem check_multithread_overwrites s t h w N :
  well_formed s h w → well_formed t h w →
  grid s = grid t → particle s = particle t → 1 ≤ N →
  next_grid (check_multithread beyond s N)
  = next_grid (check_multithread beyond t N).
Proof.
  intros Hs Ht Hg Hp HN. apply grid_ext.
  - rewrite !computed_length.
    destruct Hs as [_ [-> _]], Ht as [_ [-> _]]. done.
  - intros i j.
    rewrite (computed_cell s h w N i j Hs HN),
      (computed_cell t h w N i j Ht HN). by rewrite Hg, Hp.
Qed.

Lemma update_converging s :
  stale s = false → stale (update beyond s) = true →
  grid (update beyond s) = grid s ∧ next_grid (update beyond s) = grid s.
Proof.
  unfold update. cbv zeta.
  destruct (check_multithread_frame beyond s NUM_THREADS) as (Hg & _ & Hs).
  destruct (grid_eqb _ _) eqn:Heq; cbn [grid next_grid stale].
  - apply grid_eqb_eq in Heq. intros _ _. by rewrite <- Heq, Hg.
  - rewrite Hs. congruence.
Qed.

Lemma check_multithread_writes s N :
  check_multithread beyond s N =
  mkGameOfLife (grid s)
    (foldl (λ g c, set_cell g c.1 c.2 (written beyond (grid s) (particle s) c))
           (next_grid s) (spawn_threads (grid s) N ≫= band_cells))
    (particle s) (stale s).
Proof.
  unfold check_multithread. by rewrite run_threads_schedule, run_schedule_writes.
Qed.

(** Once a step has found the computed grid equal to the current grid, a
    further step changes nothing. *)
Theorem update_fixed_point s :
  next_grid (check_multithread beyond s NUM_THREADS) = grid s →
  update beyond (update beyond s) = update beyond s.
Proof.
  rewrite check_multithread_writes. cbn [next_grid]. intros Hfix.
  assert (update beyond s =
          mkGameOfLife (grid s) (grid s) (particle s) true) as ->.
  { unfold update. cbv zeta. rewrite check_multithread_writes.
    cbn [grid next_grid particle stale]. rewrite Hfix.
    by rewrite (proj2 (grid_eqb_eq (grid s) (grid s)) eq_refl). }
  unfold update. cbv zeta. rewrite check_multithread_writes.
  cbn [grid next_grid particle stale].
  assert (foldl (λ g c, set_cell g c.1 c.2
                          (written beyond (grid s) (particle s) c))
            (grid s) (spawn_threads (grid s) NUM_THREADS ≫= band_cells)
          = grid s) as ->.
  { rewrite <- Hfix at 1. rewrite <- Hfix at 3.
    apply (foldl_twice
      (λ g c, set_cell g c.1 c.2 (written beyond (grid s) (particle s) c))).
    - intros g a b.
      apply (set_cell_exchange (written beyond (grid s) (particle s))).
    - intros g a. apply set_cell_twice. }
  by rewrite (proj2 (grid_eqb_eq (grid s) (grid s)) eq_refl).
Qed.

(** On a grid without alive cell, where no byte past the rows is the
    particle (or the particle is the blank), every count is 0 and the pass
    computes the grid itself. *)
Lemma blank_grid_computed s h w :
  well_formed s h w →
  Forall (Forall (λ c, c = blank)) (grid s) →
  particle s = blank ∨ (∀ i j, beyond i j ≠ particle s) →
  next_grid (check_multithread beyond s NUM_THREADS) = grid s.
Proof.
  intros Hs Hblank Hp. apply grid_ext.
  - rewrite computed_length. destruct Hs as [[-> _] [-> _]]. done.
  - intros i j. rewrite (computed_cell s h w NUM_THREADS i j Hs) by done.
    destruct Hs as [Hg _].
    pose proof (cell_at_rectangular _ _ _ i j Hg) as Hcell.
    case_decide as Hin.
    + destruct (proj2 Hcell Hin) as [c Hc]. rewrite Hc. f_equal.
      pose proof (all_blank_cell _ _ _ _ Hblank Hc) as ->.
      unfold written, rule. cbn [fst snd].
      rewrite (read_cell_at beyond _ _ _ _ Hc).
      destruct Hp as [->|Hbeyond]; [by repeat destruct (_ && _)|].
      destruct (Ascii.eqb_spec blank (particle s)) as [<-|Hne];
        [by repeat destruct (_ && _)|].
      cbn [andb]. rewrite check_neighbors_count, filter_none; [done|].
      intros [a b]. cbn [fst snd]. rewrite Ascii.eqb_eq. unfold read.
      destruct (cell_at (grid s) a b) as [c|] eqn:Hab.
      * pose proof (all_blank_cell _ _ _ _ Hblank Hab) as ->. done.
      * apply Hbeyond.
    + destruct (cell_at (grid s) i j) as [c|] eqn:Hc; [|done].
      destruct Hin. apply Hcell. by eexists.
Qed.

(** A grid without alive cell converges in one step: on an engine whose
    grids have at least one row, the step sets the flag and leaves the grid
    as it is. *)
Theorem blank_grid_converges s h w :
  well_formed s h w → (0 < h)%nat →
  Forall (Forall (λ c, c = blank)) (grid s) →
  particle s = blank ∨ (∀ i j, beyond i j ≠ particle s) →
  stale (update beyond s) = true ∧ grid (update beyond s) = grid s.
Proof.
  intros Hs _ Hblank Hp.
  pose proof (blank_grid_computed s h w Hs Hblank Hp) as Hfix.
  unfold update. cbv zeta.
  destruct (check_multithread_frame beyond s NUM_THREADS) as (Hg & _ & _).
  rewrite Hg, Hfix.
  by rewrite (proj2 (grid_eqb_eq (grid s) (grid s)) eq_refl).
Qed.

End Generations.

Lemma check_multithread_overwrites_witness :
  next_grid (check_multithread zero_beyond blinker_engine 2)
  = next_grid (check_multithread zero_beyond
                 (mkGameOfLife blinker blinker star true) 2).
Proof.
  apply (check_multithread_overwrites zero_beyond blinker_engine
           (mkGameOfLife blinker blinker star true) 3 3 2).
  - split; (split; [done|]); repeat constructor.
  - split; (split; [done|]); repeat constructor.
  - done.
  - done.
  - lia.
Defined.

Lemma update_fixed_point_witness :
  update zero_beyond (update zero_beyond blank_engine)
  = update zero_beyond blank_engine.
Proof. apply (update_fixed_point zero_beyond blank_engine). reflexivity. Defined.

Lemma blank_grid_converges_witness :
  stale (update zero_beyond blank_engine) = true ∧
  grid (update zero_beyond blank_engine) = grid blank_engine.
Proof.
  apply (blank_grid_converges zero_beyond blank_engine 3 3).
  - split; (split; [done|]); repeat constructor.
  - lia.
  - repeat constructor.
  - right. intros i j. discriminate.
Defined.

(** ** The loop of [start] *)

Section Start.

Variable beyond : Z → Z → ascii.

Lemma start_loop_returns fuel :
  ∀ s frames s' frames',
  start_loop beyond fuel s frames = Some (s', frames') →
  ∃ n, (n ≤ fuel)%nat ∧
       s' = Nat.iter n (update beyond) s ∧
       frames' = frames ++ ((λ k, grid (Nat.iter k (update beyond) s)) <$> seq 0 n) ∧
       stale s' = true ∧
       ∀ k, (k < n)%nat → stale (Nat.iter k (update beyond) s) = false.
Proof.
  induction fuel as [|fuel IH]; intros s frames s' frames'; cbn [start_loop];
    destruct (stale s) eqn:Hstale; try done.
  - intros [= <- <-]. exists 0%nat. rewrite app_nil_r.
    repeat split; try done. lia.
  - intros [= <- <-]. exists 0%nat. rewrite app_nil_r.
    repeat split; try done; lia.
  - intros (n & Hn & -> & -> & Hs' & Hrun)%IH. exists (S n).
    split; [lia|]. split; [by rewrite Nat.iter_succ_r|].
    split; [|split].
    + rewrite <- app_assoc. f_equal. cbn [seq fmap list_fmap Nat.iter app].
      f_equal. rewrite <- fmap_S_seq, <- list_fmap_compose.
      apply list_fmap_ext. intros _ k _. cbn [compose].
      by rewrite <- Nat.iter_succ_r.
    + exact Hs'.
    + intros [|k] Hk; [done|]. rewrite Nat.iter_succ_r. apply Hrun. lia.
Qed.

(** When [start] returns, it has run [n >= 1] steps from the engine with the
    flag cleared: the flag was unset before each of them and is set after
    the last, the grids shown are the grids before each step, and the last
    step found the computed grid equal to the grid last shown, which both
    grids of the engine hold at the end. *)
Theorem start_returns_converged fuel s s' frames :
  start beyond fuel s = Some (s', frames) →
  let s0 := mkGameOfLife (grid s) (next_grid s) (particle s) false in
  ∃ n, (1 ≤ n ≤ fuel)%nat ∧
       s' = Nat.iter n (update beyond) s0 ∧
       frames = (λ k, grid (Nat.iter k (update beyond) s0)) <$> seq 0 n ∧
       (∀ k, (k < n)%nat → stale (Nat.iter k (update beyond) s0) = false) ∧
       stale s' = true ∧
       last frames = Some (grid s') ∧
       next_grid s' = grid s'.
Proof.
  intros Hstart s0. unfold start in Hstart. fold s0 in Hstart.
  apply start_loop_returns in Hstart as (n & Hn & -> & -> & Hs' & Hrun).
  rewrite app_nil_l.
  destruct n as [|n]; [done|].
  destruct (update_converging beyond (Nat.iter n (update beyond) s0))
    as [Hgrid Hnext]; [apply Hrun; lia|exact Hs'|].
  exists (S n). split; [lia|]. repeat split; try done.
  - rewrite seq_S, fmap_app, fmap_cons, fmap_nil, last_snoc, Nat.add_0_l.
    f_equal. symmetry. exact Hgrid.
  - change (next_grid (update beyond (Nat.iter n (update beyond) s0))
            = grid (update beyond (Nat.iter n (update beyond) s0))).
    by rewrite Hnext, Hgrid.
Qed.

(** [start] returns within [fuel] steps exactly when one of the first
    [fuel] generations sets the flag. *)
Theorem start_returns_iff fuel s :
  let s0 := mkGameOfLife (grid s) (next_grid s) (particle s) false in
  is_Some (start beyond fuel s) ↔
  ∃ n, (n ≤ fuel)%nat ∧ stale (Nat.iter n (update beyond) s0) = true.
Proof.
  intros s0. unfold start. fold s0. split.
  - intros [[s' frames] (n & Hn & -> & _ & Hs' & _)%start_loop_returns].
    by exists n.
  - intros (n & Hn & Hstale). revert Hn Hstale.
    generalize (@nil (list (list ascii))) as frames. generalize s0 as t.
    clear s s0. revert n.
    induction fuel as [|fuel IH]; intros n t frames Hn Hstale;
      cbn [start_loop].
    + assert (n = 0%nat) as -> by lia.
      change (stale t = true) in Hstale.
      rewrite Hstale. by eexists.
    + destruct (stale t) eqn:Ht; [by eexists|].
      destruct n as [|n];
        [change (stale t = true) in Hstale; congruence|].
      apply (IH n); [lia|]. by rewrite <- Nat.iter_succ_r.
Qed.

(** On a grid of at least one row without alive cell [start] shows the
    grid once and returns, with the grid unchanged. *)
Theorem start_blank_grid fuel s h w :
  well_formed s h w → (0 < h)%nat →
  Forall (Forall (λ c, c = blank)) (grid s) →
  particle s = blank ∨ (∀ i j, beyond i j ≠ particle s) →
  ∃ s', start beyond (S fuel) s = Some (s', [grid s]) ∧
        grid s' = grid s ∧ stale s' = true.
Proof.
  intros Hs _ Hblank Hp. unfold start. cbn [start_loop stale grid app].
  set (s0 := mkGameOfLife (grid s) (next_grid s) (particle s) false).
  assert (stale (update beyond s0) = true ∧ grid (update beyond s0) = grid s)
    as [Hstale Hgrid].
  { pose proof (blank_grid_computed beyond s0 h w Hs Hblank Hp) as Hfix.
    unfold update. cbv zeta.
    destruct (check_multithread_frame beyond s0 NUM_THREADS) as (Hg & _ & _).
    rewrite Hg, Hfix.
    by rewrite (proj2 (grid_eqb_eq (grid s0) (grid s0)) eq_refl). }
  exists (update beyond s0). split; [|done].
  destruct fuel; cbn [start_loop]; by rewrite Hstale.
Qed.

End Start.

Lemma start_returns_converged_witness :
  let s0 := mkGameOfLife (grid blank_engine) (next_grid blank_engine)
              (particle blank_engine) false in
  ∃ n, (1 ≤ n ≤ 5)%nat ∧
       update zero_beyond blank_engine = Nat.iter n (update zero_beyond) s0 ∧
       [blank_3x3] = (λ k, grid (Nat.iter k (update zero_beyond) s0)) <$> seq 0 n ∧
       (∀ k, (k < n)%nat → stale (Nat.iter k (update zero_beyond) s0) = false) ∧
       stale (update zero_beyond blank_engine) = true ∧
       last [blank_3x3] = Some (grid (update zero_beyond blank_engine)) ∧
       next_grid (update zero_beyond blank_engine)
       = grid (update zero_beyond blank_engine).
Proof.
  apply (start_returns_converged zero_beyond 5 blank_engine
           (update zero_beyond blank_engine) [blank_3x3]).
  reflexivity.
Defined.

Lemma start_blank_grid_witness :
  ∃ s', start zero_beyond (S 4) blank_engine = Some (s', [grid blank_engine]) ∧
        grid s' = grid blank_engine ∧ stale s' = true.
Proof.
  apply (start_blank_grid zero_beyond 4 blank_engine 3 3).
  - split; (split; [done|]); repeat constructor.
  - lia.
  - repeat constructor.
  - right. intros i j. discriminate.
Defined.

(** ** Replacing the particle *)

Lemma normalise_twice p q c :
  p ≠ blank → normalise q (normalise p c) = normalise q c.
Proof.
  intros Hp. unfold normalise.
  destruct (Ascii.eqb_spec c blank) as [->|Hc]; [done|].
  by destruct (Ascii.eqb_spec p blank).
Qed.

Lemma cell_at_fmap (f : ascii → ascii) (g : list (list ascii)) i j :
  cell_at ((λ row : list ascii, f <$> row) <$> g) i j = f <$> cell_at g i j.
Proof.
  unfold cell_at. destruct (_ && _); [|done].
  rewrite list_lookup_fmap. destruct (g !! Z.to_nat i) as [row|]; [|done].
  simpl. by rewrite list_lookup_fmap.
Qed.

(** [replace_particle] keeps the places of the grid. With a particle other
    than the blank it keeps the pattern: a cell is blank after it exactly
    when it was blank before, and every other cell is the particle; doing it
    again with any particle [q] is the same as doing it once with [q]. With
    the blank as particle every cell becomes blank. *)
Theorem replace_particle_pattern s p :
  (∀ i j, is_Some (cell_at (grid (replace_particle s p)) i j)
          ↔ is_Some (cell_at (grid s) i j)) ∧
  (p ≠ blank →
   (∀ i j c, cell_at (grid s) i j = Some c →
      cell_at (grid (replace_particle s p)) i j
      = Some (if decide (c = blank) then blank else p)) ∧
   (∀ q, replace_particle (replace_particle s p) q = replace_particle s q)) ∧
  (p = blank →
   ∀ i j c, cell_at (grid (replace_particle s p)) i j = Some c → c = blank).
Proof.
  rewrite replace_particle_normalises. cbn [grid]. split; [|split].
  - intros i j. rewrite cell_at_fmap. apply fmap_is_Some.
  - intros Hp. split.
    + intros i j c Hc. rewrite cell_at_fmap, Hc. simpl. f_equal.
      unfold normalise. destruct (Ascii.eqb_spec c blank).
      * by rewrite decide_True.
      * by rewrite decide_False.
    + intros q. rewrite !replace_particle_normalises.
      cbn [grid next_grid stale]. f_equal.
      rewrite <- list_fmap_compose. apply list_fmap_ext. intros _ row _.
      cbn [compose]. rewrite <- list_fmap_compose.
      apply list_fmap_ext. intros _ c _. cbn [compose].
      by apply normalise_twice.
  - intros -> i j c. rewrite cell_at_fmap.
    destruct (cell_at (grid s) i j) as [c'|]; [|done]. simpl.
    intros [= <-]. unfold normalise. by destruct (Ascii.eqb c' blank).
Qed.

Lemma replace_particle_pattern_witness :
  cell_at (grid (replace_particle blinker_engine "#"%char)) 1 1
  = Some "#"%char ∧
  replace_particle (replace_particle blinker_engine "#"%char) star
  = replace_particle blinker_engine star.
Proof.
  destruct (replace_particle_pattern blinker_engine "#"%char)
    as (_ & Hpattern & _).
  destruct Hpattern as [Hcell Htwice]; [discriminate|].
  split.
  - apply (Hcell 1 1 star). reflexivity.
  - apply Htwice.
Defined.

(** ** More on the embedding *)

Section Embed_more.

Variable beyond : Z → Z → ascii.
Variables uninit_x uninit_y : Z.

(** A rectangular grid embedded into a canvas of its own dimensions, with
    any of the five alignments, is returned as it is. *)
Theorem Grid_ctor_embed_same_size (g : list (list ascii)) h w align :
  rectangular g h w → Z.of_nat h < 2 ^ 31 → Z.of_nat w < 2 ^ 31 →
  (0 < h)%nat → align ≠ none →
  Grid_ctor_embed beyond uninit_x uninit_y (Z.of_nat h) (Z.of_nat w) g align
  = Some g.
Proof.
  intros Hrect Hh Hw Hpos Halign. unfold Grid_ctor_embed.
  rewrite Grid_ctor_blank by lia. cbn [mbind option_bind].
  rewrite !Nat2Z.id.
  pose proof (rectangular_replicate h w blank) as Hcanvas.
  rewrite (alignment_start_spec _ _ _ g align _ _ Hcanvas)
    by (done || by eapply rectangular_nonempty).
  cbn [mbind option_bind].
  rewrite (rectangular_height _ _ _ Hrect), (rectangular_width _ _ _ Hrect)
    by done.
  assert (spec_offset align (Z.of_nat h) (Z.of_nat w) (Z.of_nat h) (Z.of_nat w)
          = (0, 0)) as ->.
  { destruct align; try done; unfold spec_offset; f_equal; lia. }
  cbn [fst snd].
  destruct (embed_cells beyond (replicate h (replicate w blank)) g 0 0 h w
              Hcanvas) as (result & -> & Hresult & Hcells).
  f_equal.
  apply grid_ext; [destruct Hresult as [-> _], Hrect as [-> _]; done|].
  intros i j.
  pose proof (cell_at_rectangular g h w i j Hrect) as Hg.
  pose proof (cell_at_rectangular result h w i j Hresult) as Hr.
  destruct (decide (0 ≤ i < Z.of_nat h ∧ 0 ≤ j < Z.of_nat w)) as [Hin|Hout].
  - rewrite Hcells by lia.
    rewrite (rectangular_height _ _ _ Hrect),
      (rectangular_width _ _ _ Hrect) by done.
    rewrite decide_True by lia. rewrite cell_at_replicate by lia.
    destruct (proj2 Hg Hin) as [c Hc].
    cbn [fmap option_fmap option_map]. rewrite !Z.sub_0_r.
    by rewrite (read_cell_at beyond _ _ _ _ Hc).
  - destruct (cell_at g i j) as [c|] eqn:Hc;
      [destruct Hout; apply Hg; by eexists|].
    destruct (cell_at result i j) as [c|] eqn:Hc'; [|done].
    destruct Hout. apply Hr. by eexists.
Qed.

(** A rectangular source that is not larger than the canvas lies wholly on
    the canvas for each of the five alignments: the offsets are not
    negative, the source ends inside the canvas, every source cell is found
    on the canvas at its place plus the offset, and with [center] the free
    rows (and columns) before and after the source differ by one at most. *)
Theorem Grid_ctor_embed_fits height length_ (other : list (list ascii)) align :
  0 ≤ height < 2 ^ 31 → 0 ≤ length_ < 2 ^ 31 →
  Forall (λ row, Z.of_nat (length row) = Grid_width other) other →
  1 ≤ Grid_height other ≤ height → Grid_width other ≤ length_ →
  align ≠ none →
  ∃ this x y,
    Grid_ctor_embed beyond uninit_x uninit_y height length_ other align
      = Some this ∧
    alignment_start uninit_x uninit_y this other align = Some (x, y) ∧
    0 ≤ x ∧ x + Grid_height other ≤ height ∧
    0 ≤ y ∧ y + Grid_width other ≤ length_ ∧
    (align = center →
       -1 ≤ (height - Grid_height other - x) - x ≤ 1 ∧
       -1 ≤ (length_ - Grid_width other - y) - y ≤ 1) ∧
    ∀ r c, 0 ≤ r < Grid_height other → 0 ≤ c < Grid_width other →
      is_Some (cell_at other r c) ∧
      cell_at this (x + r) (y + c) = cell_at other r c.
Proof.
  intros Hh Hl Hother Hoh How Halign.
  assert (0 ≤ Grid_width other) as Hw0
    by (unfold Grid_width; destruct other; lia).
  assert (other ≠ []) as Hne
    by (intros ->; unfold Grid_height in Hoh; simpl in Hoh; lia).
  assert (rectangular other (length other) (Z.to_nat (Grid_width other)))
    as Hrect_other.
  { split; [done|]. eapply Forall_impl; [exact Hother|].
    intros row Hrow. simpl in Hrow. lia. }
  unfold Grid_ctor_embed. rewrite Grid_ctor_blank by done.
  cbn [mbind option_bind].
  pose proof (rectangular_replicate (Z.to_nat height) (Z.to_nat length_) blank)
    as Hcanvas.
  rewrite (alignment_start_spec _ _ _ other align _ _ Hcanvas)
    by (done || lia).
  cbn [mbind option_bind]. rewrite !Z2Nat.id by lia.
  destruct (spec_offset align height length_ (Grid_height other)
              (Grid_width other)) as [x y] eqn:Hoffset.
  cbn [fst snd].
  destruct (embed_cells beyond _ other x y _ _ Hcanvas)
    as (this & -> & Hrect & Hcells).
  pose proof (Z.quot_rem' height 2) as Hq1.
  pose proof (Z.rem_bound_pos height 2 ltac:(lia) ltac:(lia)) as Hr1.
  pose proof (Z.quot_rem' (Grid_height other) 2) as Hq2.
  pose proof (Z.rem_bound_pos (Grid_height other) 2 ltac:(lia) ltac:(lia))
    as Hr2.
  pose proof (Z.quot_rem' length_ 2) as Hq3.
  pose proof (Z.rem_bound_pos length_ 2 ltac:(lia) ltac:(lia)) as Hr3.
  pose proof (Z.quot_rem' (Grid_width other) 2) as Hq4.
  pose proof (Z.rem_bound_pos (Grid_width other) 2 ltac:(lia) ltac:(lia))
    as Hr4.
  assert (0 ≤ x ∧ x + Grid_height other ≤ height ∧
          0 ≤ y ∧ y + Grid_width other ≤ length_ ∧
          (align = center →
             -1 ≤ (height - Grid_height other - x) - x ≤ 1 ∧
             -1 ≤ (length_ - Grid_width other - y) - y ≤ 1))
    as (Hx0 & Hx1 & Hy0 & Hy1 & Hcenter).
  { unfold spec_offset in Hoffset.
    destruct align; try done; injection Hoffset as <- <-;
      repeat split; try discriminate; try lia. }
  exists this, x, y.
  split; [done|]. split.
  { rewrite (alignment_start_spec _ _ _ other align _ _ Hrect)
      by (done || lia).
    by rewrite !Z2Nat.id, Hoffset by lia. }
  repeat (split; [done|]).
  intros r c Hr Hc.
  assert (is_Some (cell_at other r c)) as [a Ha].
  { apply (cell_at_rectangular _ _ _ _ _ Hrect_other).
    unfold Grid_height in Hr. lia. }
  split; [by eexists|].
  rewrite Hcells by lia. rewrite decide_True by lia.
  rewrite cell_at_replicate by lia. cbn [fmap option_fmap option_map].
  replace (x + r - x) with r by lia. replace (y + c - y) with c by lia.
  by rewrite Ha, (read_cell_at beyond _ _ _ _ Ha).
Qed.

End Embed_more.

Lemma Grid_ctor_embed_same_size_witness :
  Grid_ctor_embed zero_beyond 0 0 (Z.of_nat 3) (Z.of_nat 3) blinker center
  = Some blinker.
Proof.
  apply (Grid_ctor_embed_same_size zero_beyond 0 0 blinker 3 3 center).
  - split; [done|]. repeat constructor.
  - done.
  - done.
  - lia.
  - discriminate.
Defined.

Lemma Grid_ctor_embed_fits_witness :
  ∃ this x y,
    Grid_ctor_embed zero_beyond 0 0 7 6 [[star; star]; [star; star]] center
      = Some this ∧
    alignment_start 0 0 this [[star; star]; [star; star]] center
      = Some (x, y) ∧
    0 ≤ x ∧ x + 2 ≤ 7 ∧ 0 ≤ y ∧ y + 2 ≤ 6 ∧
    (center = center →
       -1 ≤ (7 - 2 - x) - x ≤ 1 ∧ -1 ≤ (6 - 2 - y) - y ≤ 1) ∧
    ∀ r c, 0 ≤ r < 2 → 0 ≤ c < 2 →
      is_Some (cell_at [[star; star]; [star; star]] r c) ∧
      cell_at this (x + r) (y + c) = cell_at [[star; star]; [star; star]] r c.
Proof.
  apply (Grid_ctor_embed_fits zero_beyond 0 0 7 6
           [[star; star]; [star; star]] center).
  - lia.
  - lia.
  - repeat constructor.
  - vm_compute. by split.
  - vm_compute. discriminate.
  - discriminate.
Defined.

(** ** What the loader returns *)

(** The padding loop for a [max_length] in the range of [int]: a row that
    is shorter makes [insert] throw, every other row is kept. *)
Lemma padding_loop_outcome m (rows : list (list ascii)) :
  0 ≤ m < 2 ^ 31 →
  mapM (λ row : list ascii,
    if Z.of_nat (length row) <? m
    then vector_insert_end max_size_char row
           ((Z.of_nat (length row) - m) mod 2 ^ 64) blank
    else Some row) rows =
  if forallb (λ row : list ascii, m <=? Z.of_nat (length row)) rows
  then Some rows else None.
Proof.
  intros Hm. induction rows as [|row rows IH]; [done|].
  cbn [mapM forallb]. rewrite IH.
  destruct (Z.ltb_spec (Z.of_nat (length row)) m) as [Hshort|Hlong].
  - destruct (Z.leb_spec m (Z.of_nat (length row))); [lia|].
    cbn [andb]. unfold vector_insert_end.
    rewrite <- (Z.mod_add _ 1 (2 ^ 64)), Z.mod_small by lia.
    unfold max_size_char.
    destruct (Z.gtb_spec (Z.of_nat (length row) - m + 1 * 2 ^ 64)
                (2 ^ 63 - 1 - Z.of_nat (length row))); [reflexivity|lia].
  - destruct (Z.leb_spec m (Z.of_nat (length row))); [|lia].
    cbn [andb mbind option_bind].
    by destruct (forallb _ rows).
Qed.

(** The outcome of [load_grid] for every file with at least one line whose
    first line is shorter than [2 ^ 31] characters: with [m] the smaller of
    the length of the first line and the value found behind [grid.end()],
    the loader returns the lines as read when no line is shorter than [m],
    and throws when one is. No row is ever padded. *)
Theorem load_grid_outcome past_end_size lines :
  lines ≠ [] →
  0 ≤ past_end_size < 2 ^ 64 →
  match lines with
  | [] => True
  | line :: _ => Z.of_nat (String.length line) < 2 ^ 31
  end →
  load_grid past_end_size lines =
  let rows := list_ascii_of_string <$> lines in
  let m := match rows with
           | [] => 0
           | row :: _ => Z.of_nat (length row) `min` past_end_size
           end in
  if forallb (λ row : list ascii, m <=? Z.of_nat (length row)) rows
  then Some rows else None.
Proof.
  intros Hlines He Hfirst. unfold load_grid.
  destruct lines as [|line lines]; [done|].
  cbn [fmap list_fmap]. cbv zeta.
  assert (0 ≤ Z.of_nat (length (list_ascii_of_string line)) < 2 ^ 31)
    as Hsize by (rewrite length_list_ascii_of_string; lia).
  assert ((if Z.of_nat (length (list_ascii_of_string line)) >? past_end_size
           then past_end_size
           else Z.of_nat (length (list_ascii_of_string line)))
          = Z.of_nat (length (list_ascii_of_string line)) `min` past_end_size)
    as ->.
  { destruct (Z.gtb_spec (Z.of_nat (length (list_ascii_of_string line)))
                past_end_size); lia. }
  rewrite int_of_size_t_small, size_t_of_int_nonneg by lia.
  apply padding_loop_outcome. lia.
Qed.

Lemma load_grid_outcome_witness :
  load_grid 5 ["bc"; "a"; "def"]%string =
  let rows := list_ascii_of_string <$> ["bc"; "a"; "def"]%string in
  let m := match rows with
           | [] => 0
           | row :: _ => Z.of_nat (length row) `min` 5
           end in
  if forallb (λ row : list ascii, m <=? Z.of_nat (length row)) rows
  then Some rows else None.
Proof.
  apply (load_grid_outcome 5 ["bc"; "a"; "def"]%string).
  - discriminate.
  - lia.
  - vm_compute. done.
Defined.

Section Aligned.

Variable beyond : Z → Z → ascii.




End Aligned.


(** ** The alignment option *)

(** The option [-a]: each of the five keywords selects its alignment, every
    other text leaves the alignment as it was, and the option never selects
    [none]: from the default [center] the command line reaches the five
    alignments only. *)
Theorem alignment_option_keywords :
  (∀ current, alignment_option "center" current = center) ∧
  (∀ current, alignment_option "top-left" current = top_left) ∧
  (∀ current, alignment_option "top-right" current = top_right) ∧
  (∀ current, alignment_option "bottom-left" current = bottom_left) ∧
  (∀ current, alignment_option "bottom-right" current = bottom_right) ∧
  (∀ optarg current,
     optarg ∉ ["center"; "top-left"; "top-right"; "bottom-left";
               "bottom-right"]%string →
     alignment_option optarg current = current) ∧
  (∀ optarg current,
     current ≠ none → alignment_option optarg current ≠ none) ∧
  (∀ optargs,
     foldl (λ a optarg, alignment_option optarg a) center optargs ≠ none).
Proof.
  assert (∀ optarg current,
            current ≠ none → alignment_option optarg current ≠ none) as Hnone.
  { intros optarg current Hcurrent. unfold alignment_option.
    repeat destruct (String.eqb optarg _); done. }
  do 5 (split; [intros current; reflexivity|]).
  split; [|split; [exact Hnone|]].
  - intros optarg current Hother. unfold alignment_option.
    destruct (String.eqb_spec optarg "bottom-right") as [->|_];
      [exfalso; apply Hother;
       repeat (apply list_elem_of_here || apply list_elem_of_further)|].
    destruct (String.eqb_spec optarg "bottom-left") as [->|_];
      [exfalso; apply Hother;
       repeat (apply list_elem_of_here || apply list_elem_of_further)|].
    destruct (String.eqb_spec optarg "top-right") as [->|_];
      [exfalso; apply Hother;
       repeat (apply list_elem_of_here || apply list_elem_of_further)|].
    destruct (String.eqb_spec optarg "top-left") as [->|_];
      [exfalso; apply Hother;
       repeat (apply list_elem_of_here || apply list_elem_of_further)|].
    destruct (String.eqb_spec optarg "center") as [->|_];
      [exfalso; apply Hother;
       repeat (apply list_elem_of_here || apply list_elem_of_further)|].
    done.
  - intros optargs.
    enough (∀ a, a ≠ none →
              foldl (λ a optarg, alignment_option optarg a) a optargs ≠ none)
      as Hfold by (by apply Hfold).
    induction optargs as [|optarg optargs IH]; intros a Ha; [done|].
    cbn [foldl]. by apply IH, Hnone.
Qed.

(** ** The layout of the display *)

Lemma Grid_print_rows (g : list (list ascii)) :
  Grid_print g =
  g ≫= λ row, (row ≫= λ c, [c; " "%char]) ++ ["010"%char].
Proof.
  unfold Grid_print, for_range, Grid_height. rewrite Z.sub_0_r.
  enough (∀ n : nat, (n ≤ length g)%nat →
            foldl (λ out i,
                out ++ (default [] (g !! Z.to_nat i) ≫= λ c, [c; " "%char])
                    ++ ["010"%char]) [] (seqZ 0 (Z.of_nat n))
            = take n g ≫= λ row, (row ≫= λ c, [c; " "%char]) ++ ["010"%char])
    as Hloop.
  { rewrite Hloop by done. by rewrite firstn_all. }
  induction n as [|n IH]; intros Hn; [done|].
  rewrite seqZ_S, foldl_app, IH by lia. cbn [foldl].
  rewrite Z.add_0_l, Nat2Z.id.
  destruct (lookup_lt_is_Some_2 g n ltac:(lia)) as [row Hrow].
  rewrite (take_S_r _ _ _ Hrow), bind_app, Hrow. cbn [default].
  f_equal. rewrite bind_cons.
  change (@nil (list ascii) ≫= λ row, (row ≫= λ c, [c; " "%char])
                                       ++ ["010"%char])
    with (@nil ascii).
  by rewrite app_nil_r.
Qed.

Lemma print_cells_lookup (row : list ascii) (j : nat) :
  (row ≫= λ c, [c; " "%char]) !! (2 * j)%nat = row !! j ∧
  (row ≫= λ c, [c; " "%char]) !! (2 * j + 1)%nat = (λ _, " "%char) <$> row !! j.
Proof.
  revert j. induction row as [|c row IH]; intros j; [done|].
  rewrite bind_cons. destruct j as [|j]; [done|].
  replace (2 * S j)%nat with (S (S (2 * j))) by lia.
  replace (S (S (2 * j)) + 1)%nat with (S (S (2 * j + 1))) by lia.
  cbn [app lookup list_lookup]. apply IH.
Qed.

Lemma print_cells_length (row : list ascii) :
  length (row ≫= λ c, [c; " "%char]) = (2 * length row)%nat.
Proof.
  induction row as [|c row IH]; [done|].
  rewrite bind_cons, length_app, IH. simpl. lia.
Qed.

(** The place [k] of block [i] in a list of blocks of the same length. *)
Lemma lookup_blocks {A B : Type} (F : A → list B) (L : nat) (l : list A) :
  Forall (λ x, length (F x) = L) l →
  ∀ i k, (k < L)%nat →
  (l ≫= F) !! (i * L + k)%nat = l !! i ≫= λ x, F x !! k.
Proof.
  intros Hl. induction Hl as [|x l Hx _ IH]; intros i k Hk; [done|].
  rewrite bind_cons. destruct i as [|i].
  - rewrite lookup_app_l by lia. done.
  - rewrite lookup_app_r by lia. rewrite Hx.
    replace (S i * L + k - L)%nat with (i * L + k)%nat by lia.
    by apply IH.
Qed.

Lemma length_blocks {A B : Type} (F : A → list B) (L : nat) (l : list A) :
  Forall (λ x, length (F x) = L) l → length (l ≫= F) = (length l * L)%nat.
Proof.
  induction 1 as [|x l Hx _ IH]; [done|].
  rewrite bind_cons, length_app, IH, Hx. simpl. lia.
Qed.

(** What [print] sends for a grid of [h] rows of [w] cells: [h] lines of
    [2 * w + 1] characters. In line [i] the cell [(i, j)] stands at place
    [2 * j], a space follows every cell, and the line ends with the new
    line. *)
Theorem Grid_print_layout (g : list (list ascii)) h w :
  rectangular g h w →
  length (Grid_print g) = (h * (2 * w + 1))%nat ∧
  ∀ i, (i < h)%nat →
    Grid_print g !! (i * (2 * w + 1) + 2 * w)%nat = Some "010"%char ∧
    ∀ j, (j < w)%nat →
      is_Some (cell_at g (Z.of_nat i) (Z.of_nat j)) ∧
      Grid_print g !! (i * (2 * w + 1) + 2 * j)%nat
        = cell_at g (Z.of_nat i) (Z.of_nat j) ∧
      Grid_print g !! (i * (2 * w + 1) + (2 * j + 1))%nat = Some " "%char.
Proof.
  intros Hrect. pose proof Hrect as [Hh Hw]. rewrite Grid_print_rows.
  assert (Forall (λ row : list ascii,
            length ((row ≫= λ c, [c; " "%char]) ++ ["010"%char])
            = (2 * w + 1)%nat) g) as Hblocks.
  { eapply Forall_impl; [exact Hw|]. intros row Hrow. simpl in Hrow.
    rewrite length_app, print_cells_length, Hrow. simpl. lia. }
  split; [by rewrite (length_blocks _ _ _ Hblocks), Hh|].
  intros i Hi.
  destruct (lookup_lt_is_Some_2 g i ltac:(lia)) as [row Hrow].
  assert (length row = w) as Hlen
    by (eapply (Forall_lookup_1 _ _ _ _ Hw), Hrow).
  split.
  - rewrite (lookup_blocks _ _ _ Hblocks) by lia. rewrite Hrow.
    cbn [mbind option_bind].
    rewrite lookup_app_r by (rewrite print_cells_length; lia).
    rewrite print_cells_length, Hlen.
    by replace (2 * w - 2 * w)%nat with 0%nat by lia.
  - intros j Hj.
    destruct (lookup_lt_is_Some_2 row j ltac:(lia)) as [c Hc].
    rewrite cell_at_of_nat, Hrow. cbn [mbind option_bind]. rewrite Hc.
    split; [by eexists|].
    rewrite !(lookup_blocks _ _ _ Hblocks) by lia. rewrite Hrow.
    cbn [mbind option_bind].
    rewrite !lookup_app_l by (rewrite print_cells_length; lia).
    destruct (print_cells_lookup row j) as [-> ->]. by rewrite Hc.
Qed.

Lemma Grid_print_layout_witness :
  length (Grid_print blinker) = (3 * (2 * 3 + 1))%nat ∧
  ∀ i, (i < 3)%nat →
    Grid_print blinker !! (i * (2 * 3 + 1) + 2 * 3)%nat = Some "010"%char ∧
    ∀ j, (j < 3)%nat →
      is_Some (cell_at blinker (Z.of_nat i) (Z.of_nat j)) ∧
      Grid_print blinker !! (i * (2 * 3 + 1) + 2 * j)%nat
        = cell_at blinker (Z.of_nat i) (Z.of_nat j) ∧
      Grid_print blinker !! (i * (2 * 3 + 1) + (2 * j + 1))%nat
        = Some " "%char.
Proof.
  apply (Grid_print_layout blinker 3 3). split; [done|]. repeat constructor.
Defined.

(** ** The engines that the constructors build *)




(** The engine without seed, [GameOfLife(int x, int y, char particle)], for
    dimensions in the range of [int]: with [x >= 0] and [y >= 0] both grids
    have [x] rows of [y] blanks and the flag is unset; with [x < 0] the
    constructor throws. *)
Theorem GameOfLife_blank_engine x y p :
  - 2 ^ 31 ≤ x < 2 ^ 31 → - 2 ^ 31 ≤ y < 2 ^ 31 →
  (0 ≤ x → 0 ≤ y →
     GameOfLife_blank x y p =
     Some (mkGameOfLife
             (replicate (Z.to_nat x) (replicate (Z.to_nat y) blank))
             (replicate (Z.to_nat x) (replicate (Z.to_nat y) blank))
             p false)) ∧
  (x < 0 → GameOfLife_blank x y p = None).
Proof.
  intros Hx Hy. split.
  - intros Hx0 Hy0. unfold GameOfLife_blank.
    rewrite Grid_ctor_blank by lia. cbn [mbind option_bind].
    rewrite replace_particle_normalises. cbn [grid next_grid stale].
    do 2 f_equal.
    rewrite <- (list_fmap_id (replicate (Z.to_nat x) _)) at 2.
    apply list_fmap_ext. intros i row Hrow%lookup_replicate_1.
    destruct Hrow as [-> _].
    rewrite <- (list_fmap_id (replicate (Z.to_nat y) _)) at 2.
    apply list_fmap_ext. by intros j c [-> _]%lookup_replicate_1.
  - intros Hneg. unfold GameOfLife_blank, Grid_ctor.
    by rewrite (vector_fill_none max_size_row x) by (lia || by vm_compute).
Qed.

Lemma GameOfLife_blank_engine_witness :
  (0 ≤ 2 → 0 ≤ 3 →
     GameOfLife_blank 2 3 star =
     Some (mkGameOfLife
             (replicate (Z.to_nat 2) (replicate (Z.to_nat 3) blank))
             (replicate (Z.to_nat 2) (replicate (Z.to_nat 3) blank))
             star false)) ∧
  (2 < 0 → GameOfLife_blank 2 3 star = None).
Proof. apply (GameOfLife_blank_engine 2 3 star); lia. Defined.

Lemma alignment_option_keywords_witness :
  alignment_option "diagonal" top_left = top_left ∧
  alignment_option "middle" center ≠ none.
Proof.
  destruct alignment_option_keywords as (_ & _ & _ & _ & _ & Hother & Hnone & _).
  split.
  - apply Hother. intros Hin. by repeat apply elem_of_cons in Hin as [?|Hin];
      try (by apply elem_of_nil in Hin).
  - apply Hnone. discriminate.
Defined.

(** ** The places read by the count *)

(** The places at which [check_neighbors] evaluates [grid[i][j]] for the
    cell [(x, y)] are exactly the places next to the cell with a row index
    inside the grid, a column index that is not negative, and a row index
    below the width. So no row outside the grid and no negative column is
    ever read, and on a rectangular grid with no more rows than columns and
    a cell [(x, y)] of the grid, a read leaves the grid by one column at
    most. *)
Theorem check_neighbors_reads_places beyond (g : list (list ascii)) p x y :
  (∀ i j, (i, j) ∈ check_neighbors_reads beyond g p x y ↔
     x - 1 ≤ i ≤ x + 1 ∧ y - 1 ≤ j ≤ y + 1 ∧ (i, j) ≠ (x, y) ∧
     0 ≤ i < Grid_height g ∧ 0 ≤ j ∧ i < Grid_width g) ∧
  (∀ i j, y < Grid_width g →
     (i, j) ∈ check_neighbors_reads beyond g p x y →
     0 ≤ i < Grid_height g ∧ 0 ≤ j ≤ Grid_width g).
Proof.
  assert (∀ i j, (i, j) ∈ check_neighbors_reads beyond g p x y ↔
     x - 1 ≤ i ≤ x + 1 ∧ y - 1 ≤ j ≤ y + 1 ∧ (i, j) ≠ (x, y) ∧
     0 ≤ i < Grid_height g ∧ 0 ≤ j ∧ i < Grid_width g) as Hplaces.
  { intros i j. rewrite check_neighbors_reads_filter, list_elem_of_filter,
      elem_of_rectangle_cells.
    unfold neighbor_read. cbn [fst snd].
    destruct (Z.ltb_spec i 0), (Z.geb_spec i (Z.of_nat (length g))),
      (Z.ltb_spec j 0), (Z.geb_spec i (Grid_width g)),
      (Z.eqb_spec i x), (Z.eqb_spec j y); unfold Grid_height;
      cbn [negb orb andb]; split; intros Hread;
      repeat split; try lia; try done; try (by destruct Hread);
      try (intros [= ]; lia); try (destruct Hread as (_ & _ & Hne & _);
                                   subst; done). }
  split; [exact Hplaces|].
  intros i j Hy Hread%Hplaces. lia.
Qed.

Lemma check_neighbors_reads_places_witness :
  (1, 3) ∈ check_neighbors_reads zero_beyond blinker star 1 2.
Proof.
  apply (proj1 (check_neighbors_reads_places zero_beyond blinker star 1 2)).
  vm_compute. repeat split; discriminate.
Defined.
